(** * Context management of the Ollama editor client

    A shallow embedding of [autoload/ollama_complete.py]: the text
    sanitizer ([clean_completion], [_extract_code], [_clean_code_lines]),
    the session turn log ([add_turn], [get_history_messages]), the
    two-tier snippet cache ([cache_snippet], [get_cached_snippet],
    [store_file_summary]) and the persisted context store
    ([_load_context], [_save_context]).

    Python strings are sequences of Unicode code points; they are embedded
    as [list N], one number per code point.  Dictionaries are finite maps
    ([gmap]).  The module-level globals of the script are the fields of an
    explicit [state] record that every operation takes and returns. *)

From Stdlib Require Import NArith ZArith List Bool Lia String Ascii.
From stdpp Require Import base option list gmap.

Local Open Scope N_scope.
Local Open Scope list_scope.

(** ** Python strings *)

Abbreviation str := (list N).

(** An ASCII literal as a Python string. *)
Definition u (s : string) : str :=
  map N_of_ascii (list_ascii_of_string s).

(** The two non-ASCII code points of the fill-in-the-middle tokens:
    U+FF5C FULLWIDTH VERTICAL LINE and U+2581 LOWER ONE EIGHTH BLOCK. *)
Definition FULLWIDTH_BAR : N := 65372.
Definition LOWER_BLOCK : N := 9601.

Definition NL : N := 10.
Definition BACKTICK : N := 96.

(** [str.isspace] on one code point: the code points CPython's
    [_PyUnicode_IsWhitespace] accepts.  [str.strip()] and the [\s] class
    of a [str] pattern both use it. *)
Definition isspace (c : N) : bool :=
  ((9 <=? c) && (c <=? 13)) || ((28 <=? c) && (c <=? 32))
  || (c =? 133) || (c =? 160) || (c =? 5760)
  || ((8192 <=? c) && (c <=? 8202))
  || (c =? 8232) || (c =? 8233) || (c =? 8239) || (c =? 8287)
  || (c =? 12288).

(** [dropwhile p s]: the longest suffix of [s] whose first character
    fails [p]. *)
Fixpoint dropwhile (p : N -> bool) (s : str) : str :=
  match s with
  | [] => []
  | c :: s' => if p c then dropwhile p s' else s
  end.

Definition lstrip (s : str) : str := dropwhile isspace s.
Definition rstrip (s : str) : str := rev (dropwhile isspace (rev s)).

(** [s.strip()] *)
Definition strip (s : str) : str := rstrip (lstrip s).

(** [s.startswith(p)] *)
Fixpoint startswith (s p : str) {struct p} : bool :=
  match p, s with
  | [], _ => true
  | _ :: _, [] => false
  | a :: p', c :: s' => (c =? a) && startswith s' p'
  end.

(** [s.endswith(p)] *)
Definition endswith (s p : str) : bool := startswith (rev s) (rev p).

(** [sub in s] *)
Fixpoint str_in (sub s : str) : bool :=
  startswith s sub ||
  match s with
  | [] => false
  | _ :: s' => str_in sub s'
  end.

(** [s.replace(old, empty)]: the occurrences of [old] are found from left to
    right and do not overlap; each is deleted.  [skip] counts the
    characters of the occurrence being deleted that are still ahead. *)
Fixpoint remove_from (old : str) (skip : nat) (s : str) : str :=
  match s with
  | [] => []
  | c :: s' =>
      match skip with
      | S k => remove_from old k s'
      | O => if startswith s old
             then remove_from old (Nat.pred (length old)) s'
             else c :: remove_from old O s'
      end
  end.

Definition remove_all (old s : str) : str :=
  match old with
  | [] => s
  | _ :: _ => remove_from old O s
  end.

(** [s.split(sep)] for a one-character separator: never empty. *)
Fixpoint split (sep : N) (s : str) : list str :=
  match s with
  | [] => [[]]
  | c :: s' =>
      if c =? sep then [] :: split sep s'
      else match split sep s' with
           | l :: ls => (c :: l) :: ls
           | [] => [[c]]
           end
  end.

(** [s.split(sep)[0]] *)
Definition first_piece (sep : N) (s : str) : str :=
  match split sep s with
  | l :: _ => l
  | [] => []
  end.

(** ** Regular expressions

    The three patterns of the script use literals, one optional literal,
    one capturing group over a greedy or a lazy dot-star (with [re.DOTALL],
    so the dot is any character) and one anchored character class.
    [re.search] tries the start positions from left to right and, at each,
    the alternatives in the order of a backtracking matcher. *)

Inductive re_item :=
| RLit (l : str)      (* the literal l *)
| ROpt (l : str)      (* optional literal, greedy: with l first, then without *)
| RGroupLazy          (* group over a lazy dot-star: shortest first *)
| RGroupGreedy.       (* group over a greedy dot-star: longest first *)

Definition after_prefix (p s : str) : option str :=
  if startswith s p then Some (drop (length p) s) else None.

(** [match_here p s]: does [p] match a prefix of [s]; the result is the
    text of the capturing group (empty when the pattern has none). *)
Fixpoint match_here (p : list re_item) (s : str) : option str :=
  match p with
  | [] => Some []
  | RLit l :: p' =>
      match after_prefix l s with
      | Some rest => match_here p' rest
      | None => None
      end
  | ROpt l :: p' =>
      match (match after_prefix l s with
             | Some rest => match_here p' rest
             | None => None
             end) with
      | Some g => Some g
      | None => match_here p' s
      end
  | RGroupLazy :: p' =>
      (fix lazy (s : str) : option str :=
         match match_here p' s with
         | Some _ => Some []
         | None =>
             match s with
             | [] => None
             | c :: s' => option_map (cons c) (lazy s')
             end
         end) s
  | RGroupGreedy :: p' =>
      (fix greedy (s : str) : option str :=
         match s with
         | [] => match match_here p' [] with
                 | Some _ => Some []
                 | None => None
                 end
         | c :: s' =>
             match greedy s' with
             | Some g => Some (c :: g)
             | None => match match_here p' s with
                       | Some _ => Some []
                       | None => None
                       end
             end
         end) s
  end.

(** [re.search(p, s)]: group 1 of the leftmost match, if any. *)
Fixpoint re_search (p : list re_item) (s : str) : option str :=
  match match_here p s with
  | Some g => Some g
  | None =>
      match s with
      | [] => None
      | _ :: s' => re_search p s'
      end
  end.

(** ** Text sanitizer *)

Definition FIM_BEGIN : str :=
  u "<" ++ [FULLWIDTH_BAR] ++ u "fim" ++ [LOWER_BLOCK] ++ u "begin"
    ++ [FULLWIDTH_BAR] ++ u ">".
Definition FIM_HOLE : str :=
  u "<" ++ [FULLWIDTH_BAR] ++ u "fim" ++ [LOWER_BLOCK] ++ u "hole"
    ++ [FULLWIDTH_BAR] ++ u ">".
Definition FIM_END : str :=
  u "<" ++ [FULLWIDTH_BAR] ++ u "fim" ++ [LOWER_BLOCK] ++ u "end"
    ++ [FULLWIDTH_BAR] ++ u ">".
Definition END_OF_TEXT : str := u "<|endoftext|>".

Definition control_tokens : list str :=
  [FIM_BEGIN; FIM_HOLE; FIM_END; END_OF_TEXT].

Definition FENCE : str := [BACKTICK; BACKTICK; BACKTICK].
Definition FENCE_PYTHON : str := FENCE ++ u "python".

(** The character class of the pattern of [re.sub]: double quote, single
    quote, comma, backtick and white space. *)
Definition leading_junk (c : N) : bool :=
  (c =? 34) || (c =? 39) || (c =? 44) || (c =? BACKTICK) || isspace c.

(** The text left by the removals of [clean_completion] (its first two
    statements, before the final [.strip()]): every token in turn, then
    the tagged fence, then the bare fence. *)
Definition scrub (completion : str) : str :=
  let completion := fold_left (fun acc token => remove_all token acc)
                              control_tokens completion in
  remove_all FENCE (remove_all FENCE_PYTHON completion).

Definition clean_completion (completion current_line_before_cursor : str) : str :=
  let completion := strip (scrub completion) in
  let cur := strip current_line_before_cursor in
  let completion :=
    if negb (Nat.eqb (length cur) 0) && startswith completion cur
    then strip (drop (length cur) completion)
    else completion in
  (* re.sub of the anchored class: at most one match, the leading run of
     characters of the class, which is deleted *)
  let completion := dropwhile leading_junk completion in
  let completion := first_piece NL completion in
  strip completion.

(** The patterns of [_extract_code]. *)
Definition RE_FENCED : list re_item :=
  [RLit FENCE; ROpt (u "python"); RLit [NL]; RGroupLazy; RLit FENCE].
Definition RE_OPEN_FENCE : list re_item :=
  [RLit FENCE; ROpt (u "python"); RLit [NL]; RGroupGreedy].

Definition _extract_code (content : str) : str :=
  match re_search RE_FENCED content with
  | Some g => strip g
  | None =>
      match re_search RE_OPEN_FENCE content with
      | Some g => strip g
      | None => strip content
      end
  end.

(** *** [_clean_code_lines]

    [str.isupper] on one code point is a table of the Unicode database; it
    is a parameter of the embedding. *)

Section CleanCodeLines.

Variable isupper : N -> bool.

Definition code_marks : list str :=
  [u "="; u "("; u ")"; u "."; u "["; u "]"; u ":"; u "#"].

Definition has_code (s : str) : bool :=
  existsb (fun c => str_in c s) code_marks.

(** [s[0].isupper()]; [s] is not empty where the script evaluates it. *)
Definition first_isupper (s : str) : bool :=
  match s with
  | c :: _ => isupper c
  | [] => false
  end.

Definition is_prose (s : str) : bool :=
  (first_isupper s && negb (has_code s))
  || (endswith s (u "...") || endswith s (u "?") || endswith s (u "!")).

(** One turn of the loop: what is appended to [clean] for [line], if
    anything. *)
Definition clean_line (line : str) : option str :=
  let s := strip line in
  match s with
  | [] => Some []
  | _ :: _ =>
      if startswith s FENCE then None
      else if startswith s (u "import ") || startswith s (u "from ") then None
      else if str_in (u "read_csv") s then None
      else if is_prose s && negb (startswith s (u "#")) then None
      else Some line
  end.

(** [set(l.strip() for l in all_lines if l.strip())] *)
Definition existing_set (all_lines : list str) : gset str :=
  list_to_set (filter (fun s => s <> []) (map strip all_lines)).

(** The loop and the final comprehension, on the lines of [generated]. *)
Definition clean_code_of_lines (lines all_lines : list str) : list str :=
  filter (fun l => strip l ∉ existing_set all_lines) (omap clean_line lines).

Definition _clean_code_lines (generated : str) (all_lines : list str) : list str :=
  clean_code_of_lines (split NL generated) all_lines.

End CleanCodeLines.

(** ** Session turn log *)

Record turn := Turn { role : str; content : str }.

Definition MAX_TURNS : nat := 10.

(** [add_turn]: append, then [del _turn_history[0]] when the list is longer
    than [MAX_TURNS * 2]. *)
Definition add_turn (_turn_history : list turn) (role content : str) : list turn :=
  let h := _turn_history ++ [Turn role content] in
  let max_items := (MAX_TURNS * 2)%nat in
  if (max_items <? length h)%nat then drop 1 h else h.

(** The slice [l[-n:]] for a positive [n]: it starts at [max (len l - n) 0]. *)
Definition last_n {A} (n : nat) (l : list A) : list A :=
  drop (length l - n)%nat l.

Definition get_history_messages (_turn_history : list turn) (system_prompt : str)
  : list turn :=
  Turn (u "system") system_prompt :: last_n (MAX_TURNS * 2) _turn_history.

(** ** Persisted context store and snippet cache *)

(** The values [json.load] builds.  A float is kept as its binary64 bit
    pattern; no operation of the script computes with one. *)
Inductive json :=
| JNull
| JBool (b : bool)
| JInt (z : Z)
| JFloat (bits : Z)
| JStr (s : str)
| JArr (l : list json)
| JObj (m : gmap str json).

(** Truth value of a Python object, as [if entry] tests it. *)
Definition truthy (v : json) : bool :=
  match v with
  | JNull => false
  | JBool b => b
  | JInt z => negb (z =? 0)%Z
  | JFloat bits => negb (bits mod 2 ^ 63 =? 0)%Z
  | JStr s => negb (Nat.eqb (length s) 0)
  | JArr l => negb (Nat.eqb (length l) 0)
  | JObj m => negb (Nat.eqb (size m) 0)
  end.

(** [{snippets: {}, file_summaries: {}}] *)
Definition empty_document : json :=
  JObj (<[u "snippets" := JObj ∅]> (<[u "file_summaries" := JObj ∅]> ∅)).

(** The file [CONTEXT_FILE] as the script can observe it. *)
Inductive file_state :=
| Absent                  (* os.path.exists is false *)
| Unreadable              (* exists, but open or read raises *)
| Contents (text : str).  (* exists and reads as text *)

(** What the operating system does with one [_save_context]. *)
Inductive write_outcome :=
| WriteOk
| WriteFails (remains : file_state).  (* open or write raises; the file is left so *)

Record io := IO { makedirs_ok : bool; write : write_outcome }.

Inductive exn := AttributeError | TypeError | OSError.

(** The globals of the module and the file. *)
Record state := State {
  _turn_history : list turn;
  _snippet_cache : gmap str str;
  _disk_context : json;
  context_file : file_state
}.

(** Statements run in a state and either finish or raise; the state
    reached is kept in both cases. *)
Definition M (A : Type) : Type := state -> (exn + A) * state.

Definition ret {A} (a : A) : M A := fun st => (inr a, st).
Definition raise {A} (e : exn) : M A := fun st => (inl e, st).
Definition bind {A B} (c : M A) (k : A -> M B) : M B :=
  fun st =>
    match c st with
    | (inr a, st') => k a st'
    | (inl e, st') => (inl e, st')
    end.
Definition get_state : M state := fun st => (inr st, st).
Definition put_state (st : state) : M unit := fun _ => (inr tt, st).

Notation "'do' x <- c ; k" := (bind c (fun x => k))
  (at level 10, x name, c at level 100, k at level 200).
Notation "c ;; k" := (bind c (fun _ => k))
  (at level 100, k at level 200, right associativity).

Definition set_snippet_cache (m : gmap str str) : M unit :=
  do st <- get_state;
  put_state (State (_turn_history st) m (_disk_context st) (context_file st)).
Definition set_disk_context (d : json) : M unit :=
  do st <- get_state;
  put_state (State (_turn_history st) (_snippet_cache st) d (context_file st)).
Definition set_context_file (f : file_state) : M unit :=
  do st <- get_state;
  put_state (State (_turn_history st) (_snippet_cache st) (_disk_context st) f).

Section Store.

(** [json.dump(ctx, f, indent=2)] and [json.load(f)] belong to the
    Python library: the text written for a value, and the value parsed
    from a text ([None] when parsing raises). *)
Variable json_dump : json -> str.
Variable json_load : str -> option json.

Definition _load_context (f : file_state) : json :=
  match f with
  | Absent => empty_document
  | Unreadable => empty_document
  | Contents text =>
      match json_load text with
      | Some v => v
      | None => empty_document
      end
  end.

(** [os.makedirs] stands outside the [try]; the write stands inside. *)
Definition _save_context (o : io) (ctx : json) : M unit :=
  if makedirs_ok o then
    match write o with
    | WriteOk => set_context_file (Contents (json_dump ctx))
    | WriteFails remains => set_context_file remains
    end
  else raise OSError.

(** [_disk_context.setdefault(table, {})[key] = entry] *)
Definition set_entry (table key : str) (entry : json) : M unit :=
  do st <- get_state;
  match _disk_context st with
  | JObj m =>
      match default (JObj ∅) (m !! table) with
      | JObj t => set_disk_context (JObj (<[table := JObj (<[key := entry]> t)]> m))
      | _ => raise TypeError
      end
  | _ => raise AttributeError
  end.

(** [now] is the value of [time.strftime] at the call. *)
Definition cache_snippet (o : io) (now comment code : str) : M unit :=
  (do st <- get_state;
   set_snippet_cache (<[comment := code]> (_snippet_cache st)));;
  set_entry (u "snippets") comment
    (JObj (<[u "code" := JStr code]> (<[u "timestamp" := JStr now]> ∅)));;
  do st <- get_state;
  _save_context o (_disk_context st).

Definition store_file_summary (o : io) (now filepath summary : str) : M unit :=
  set_entry (u "file_summaries") filepath
    (JObj (<[u "summary" := JStr summary]> (<[u "timestamp" := JStr now]> ∅)));;
  do st <- get_state;
  _save_context o (_disk_context st).

End Store.

(** [d.get(key, {})] on a Python object [d]. *)
Definition get_or_empty (d : json) (key : str) : exn + json :=
  match d with
  | JObj m => inr (default (JObj ∅) (m !! key))
  | _ => inl AttributeError
  end.

(** [d.get(key)]: [None] when the key is missing. *)
Definition get_or_none (d : json) (key : str) : exn + json :=
  match d with
  | JObj m => inr (default JNull (m !! key))
  | _ => inl AttributeError
  end.

(** [get_cached_snippet] reads the state and changes nothing. *)
Definition get_cached_snippet (comment : str) (st : state) : exn + json :=
  match _snippet_cache st !! comment with
  | Some code => inr (JStr code)
  | None =>
      match get_or_empty (_disk_context st) (u "snippets") with
      | inl e => inl e
      | inr snippets =>
          match get_or_none snippets comment with
          | inl e => inl e
          | inr entry =>
              if truthy entry then get_or_none entry (u "code") else inr JNull
          end
      end
  end.

(** ** Definitions used by the statements *)

(** [factor a s]: [a] occurs in [s] as a contiguous piece. *)
Definition factor (a s : str) : Prop := exists p q, s = p ++ a ++ q.

(** A run of [add_turn] calls, one per element of [ts]. *)
Definition add_turns (h : list turn) (ts : list turn) : list turn :=
  fold_left (fun h t => add_turn h (role t) (content t)) ts h.

(** The [i]-th call of a session whose roles alternate, starting with the
    user. *)
Definition alternating (contents : list str) : list turn :=
  imap (fun i c => Turn (if Nat.even i then u "user" else u "assistant") c) contents.

(** A sample [isupper] table: the ASCII capital letters. *)
Definition isupper_ascii (c : N) : bool := (65 <=? c) && (c <=? 90).

(** [d.get(name)] as a view of one table of the document. *)
Definition table_of (d : json) (name : str) : option json :=
  match d with
  | JObj m => m !! name
  | _ => None
  end.

(** A sample codec, right on the empty dictionary: it writes and reads the
    two braces. *)
Definition dump_braces (_ : json) : str := u "{}".
Definition load_braces (text : str) : option json :=
  if decide (text = u "{}") then Some (JObj ∅) else None.

(** The opening fence markers of [_extract_code]: three backticks, an
    optional language tag [python] and the end of the line. *)
Definition OPEN_PYTHON : str := FENCE ++ u "python" ++ [NL].
Definition OPEN_BARE : str := FENCE ++ [NL].

(** The text after an opening marker at the start of [s]. *)
Definition after_opening (s : str) : option str :=
  match after_prefix OPEN_PYTHON s with
  | Some rest => Some rest
  | None => after_prefix OPEN_BARE s
  end.

(** The text after the first opening marker of [s]. *)
Fixpoint find_opening (s : str) : option str :=
  match after_opening s with
  | Some rest => Some rest
  | None =>
      match s with
      | [] => None
      | _ :: s' => find_opening s'
      end
  end.

(** The text before the first fence of [s]. *)
Fixpoint before_fence (s : str) : option str :=
  if startswith s FENCE then Some []
  else match s with
       | [] => None
       | c :: s' => option_map (cons c) (before_fence s')
       end.

(** ** The rest of the module

    Functions of the script that the statements above do not reach.  The
    editor is seen through what the script reads from it: the lines of the
    buffer and the cursor (a row counted from 1 and a column). *)

(** [sep.join(l)] *)
Fixpoint join (sep : str) (l : list str) : str :=
  match l with
  | [] => []
  | x :: l' =>
      match l' with
      | [] => x
      | _ :: _ => x ++ sep ++ join sep l'
      end
  end.

(** [get_prefix]: the lines up to the cursor row, the last one cut at the
    column.  [lines[-1]] raises when the slice is empty; that is [None]. *)
Definition get_prefix (buffer : list str) (row col : nat) : option str :=
  let lines := take row buffer in
  match last lines with
  | Some l => Some (join [NL] (<[Nat.pred (length lines) := take col l]> lines))
  | None => None
  end.

(** [get_suffix]: the rest of the cursor line and the lines after it.  Vim
    gives a row of at least 1; the model has no result for row 0, nor for a
    row past the buffer, where [buffer[row - 1]] raises. *)
Definition get_suffix (buffer : list str) (row col : nat) : option str :=
  match row with
  | O => None
  | S r =>
      match buffer !! r with
      | Some l => Some (join [NL] (drop col l :: drop row buffer))
      | None => None
      end
  end.

Definition get_current_line_before_cursor (buffer : list str) (row col : nat)
  : option str :=
  match row with
  | O => None
  | S r => take col <$> buffer !! r
  end.

(** The statements of [insert_completion] that follow the cleaning of the
    answer: nothing is done for an empty completion; otherwise the new text
    of the cursor line and the new column. *)
Definition insert_text (line : str) (col : nat) (completion : str)
  : option (str * nat) :=
  match completion with
  | [] => None
  | _ :: _ =>
      let before_cursor := take col line in
      let needs_space :=
        (0 <? length before_cursor)%nat
        && negb (endswith before_cursor (u " "))
        && negb (startswith completion (u " ")) in
      let completion := if needs_space then u " " ++ completion else completion in
      Some (before_cursor ++ completion ++ drop col line,
            (col + length completion)%nat)
  end.

(** The text [prior] that [generate_from_comment] adds to its request: the
    last three answers of the assistant, joined, cut to their last 600
    characters, under a heading; empty when the assistant has not answered
    yet.  The heading holds one em dash, U+2014. *)
Definition PRIOR_HEADING : str :=
  [NL; NL] ++ u "Snippets generated earlier this session (already in file "
    ++ [8212] ++ u " do not repeat them):" ++ [NL].

Definition PRIOR_SEPARATOR : str := [NL] ++ u "---" ++ [NL].

Definition assistant_turns (_turn_history : list turn) : list str :=
  content <$> filter (fun t => role t = u "assistant") _turn_history.

Definition prior_snippets (_turn_history : list turn) : str :=
  match assistant_turns _turn_history with
  | [] => []
  | _ :: _ =>
      PRIOR_HEADING
      ++ last_n 600 (join PRIOR_SEPARATOR (last_n 3 (assistant_turns _turn_history)))
  end.

(** [get_file_summary]: three [.get] calls in a row. *)
Definition get_file_summary (filepath : str) (st : state) : exn + json :=
  match get_or_empty (_disk_context st) (u "file_summaries") with
  | inl e => inl e
  | inr summaries =>
      match get_or_empty summaries filepath with
      | inl e => inl e
      | inr entry => get_or_none entry (u "summary")
      end
  end.

Definition set_turn_history (h : list turn) : M unit :=
  do st <- get_state;
  put_state (State h (_snippet_cache st) (_disk_context st) (context_file st)).

(** [x.clear()] on a Python object: dictionaries and lists have it. *)
Definition py_clear (d : json) : exn + json :=
  match d with
  | JObj _ => inr (JObj ∅)
  | JArr _ => inr (JArr [])
  | _ => inl AttributeError
  end.

(** [clear_all_context], up to its message to the editor.  [remove_ok]
    tells whether [os.remove] succeeds when the file exists. *)
Definition clear_all_context (remove_ok : bool) : M unit :=
  set_turn_history [];;
  set_snippet_cache ∅;;
  (do st <- get_state;
   match py_clear (_disk_context st) with
   | inr d => set_disk_context d
   | inl e => raise e
   end);;
  do st <- get_state;
  match context_file st with
  | Absent => ret tt
  | _ => if remove_ok then set_context_file Absent else raise OSError
  end.

(** A new process: the module is loaded again, with the file as it is. *)
Definition restart (json_load : str -> option json) (st : state) : state :=
  State [] ∅ (_load_context json_load (context_file st)) (context_file st).

(** What [_clean_code_lines] puts in [clean] for a line it keeps: the
    empty string for a blank line, the line itself otherwise. *)
Definition blank_as_empty (line : str) : str :=
  match strip line with
  | [] => []
  | _ :: _ => line
  end.

(** The document is a dictionary in which the table [name] is missing or
    is a dictionary: what [setdefault(name, {})[key] = entry] needs in
    order not to raise. *)
Definition table_ready (d : json) (name : str) : bool :=
  match d with
  | JObj m =>
      match m !! name with
      | None => true
      | Some (JObj _) => true
      | Some _ => false
      end
  | _ => false
  end.

(** A sample parser for one document: it reads every text as [d]. *)
Definition load_as (d : json) (_ : str) : option json := Some d.

(** The entries that [cache_snippet] and [store_file_summary] write. *)
Definition snippet_entry (code now : str) : json :=
  JObj (<[u "code" := JStr code]> (<[u "timestamp" := JStr now]> ∅)).
Definition summary_entry (summary now : str) : json :=
  JObj (<[u "summary" := JStr summary]> (<[u "timestamp" := JStr now]> ∅)).

(** ** Whole control tokens

    All four control tokens begin with the character [<], and a token can
    only begin at a [<].  A [<] of a text is settled for the tokens [toks]
    when it begins one of them, or is the last character, or is followed by
    a character that begins neither a token nor a fence and is not the
    second character of a token: no deletion can then turn it into the
    beginning of a token. *)
Definition LT : N := 60.

Definition opens_marker (c : N) : bool :=
  (c =? 124) || (c =? FULLWIDTH_BAR) || (c =? LT) || (c =? BACKTICK).

Definition head_settled (toks : list str) (s : str) : bool :=
  match s with
  | [] => true
  | c :: s' =>
      negb (c =? LT)
      || existsb (startswith s) toks
      || match s' with
         | [] => true
         | d :: _ => negb (opens_marker d)
         end
  end.

Fixpoint settled (toks : list str) (s : str) : bool :=
  match s with
  | [] => true
  | _ :: s' => head_settled toks s && settled toks s'
  end.

(** Every [<] of [raw] begins a control token, or cannot come to begin
    one. *)
Definition whole_tokens (raw : str) : bool := settled control_tokens raw.

(** ** Fenced blocks

    The markers [_extract_code] knows.  An opening fence marker is three
    backticks, then [python] or nothing, then the end of the line
    ([OPEN_PYTHON], [OPEN_BARE]); a closing fence marker is three
    backticks. *)
Definition is_opening (s : str) : bool :=
  startswith s OPEN_PYTHON || startswith s OPEN_BARE.

Definition is_fence (s : str) : bool := startswith s FENCE.

(** [first_at P pre s]: in the text [pre ++ s], [P] holds of the text that
    begins after [pre], and of no text that begins earlier. *)
Fixpoint none_before (P : str -> bool) (pre s : str) : bool :=
  match pre with
  | [] => true
  | _ :: pre' => negb (P (pre ++ s)) && none_before P pre' s
  end.

Definition first_at (P : str -> bool) (pre s : str) : bool :=
  P s && none_before P pre s.

(** [trimmed x r]: [r] is [x] without the white space at its two ends. *)
Definition trimmed (x r : str) : Prop :=
  exists a b,
    x = a ++ r ++ b
    /\ forallb isspace a = true
    /\ forallb isspace b = true
    /\ (forall c t, r = c :: t -> isspace c = false)
    /\ (forall t c, r = t ++ [c] -> isspace c = false).

(** ** The JSON text of the document

    [json.dump(ctx, f, indent=2)] and [json.load(f)] of the Python library,
    for the values of [json].  The keys of a dictionary are written in the
    order of the map (Python writes them in the order of insertion; the
    value read back is the same).  The text of a float and the float of a
    text are tables of the library and stay parameters.  As everywhere in
    this development the interpreter has no limit on memory, on the depth
    of recursion or on the number of digits of an integer. *)

Section JsonCodec.

Variable float_text : Z -> str.
Variable float_of_text : str -> Z.

Definition hex_digit (d : N) : N := if d <? 10 then 48 + d else 87 + d.

(** The escape of a code unit below 65536: backslash, [u], four
    hexadecimal digits in lower case. *)
Definition u_escape (v : N) : str :=
  [92; 117; hex_digit (v / 4096); hex_digit (v / 256 mod 16);
   hex_digit (v / 16 mod 16); hex_digit (v mod 16)].

(** [ensure_ascii] is on: every character outside the printable ASCII
    range is escaped, one above 65535 as a pair of surrogates. *)
Definition escape_char (c : N) : str :=
  if c =? 34 then [92; 34]
  else if c =? 92 then [92; 92]
  else if c =? 10 then [92; 110]
  else if c =? 13 then [92; 114]
  else if c =? 9 then [92; 116]
  else if c =? 12 then [92; 102]
  else if c =? 8 then [92; 98]
  else if (32 <=? c) && (c <=? 126) then [c]
  else if c <? 65536 then u_escape c
  else u_escape (55296 + ((c - 65536) / 1024) mod 1024)
       ++ u_escape (56320 + (c - 65536) mod 1024).

Definition quote (s : str) : str := [34] ++ flat_map escape_char s ++ [34].

Definition newline_indent (level : nat) : str := NL :: repeat 32 (2 * level).

Definition digit_text (d : Decimal.uint) : str :=
  (fix go (d : Decimal.uint) : str :=
     match d with
     | Decimal.Nil => []
     | Decimal.D0 d => 48 :: go d
     | Decimal.D1 d => 49 :: go d
     | Decimal.D2 d => 50 :: go d
     | Decimal.D3 d => 51 :: go d
     | Decimal.D4 d => 52 :: go d
     | Decimal.D5 d => 53 :: go d
     | Decimal.D6 d => 54 :: go d
     | Decimal.D7 d => 55 :: go d
     | Decimal.D8 d => 56 :: go d
     | Decimal.D9 d => 57 :: go d
     end) d.

Definition int_text (z : Z) : str :=
  (if (z <? 0)%Z then [45] else []) ++ digit_text (N.to_uint (Z.abs_N z)).

(** The text of [v] when it stands [level] levels deep. *)
Fixpoint dump (level : nat) (v : json) : str :=
  match v with
  | JNull => u "null"
  | JBool b => if b then u "true" else u "false"
  | JInt z => int_text z
  | JFloat bits => float_text bits
  | JStr s => quote s
  | JArr l =>
      match l with
      | [] => u "[]"
      | _ :: _ =>
          u "[" ++ newline_indent (S level)
          ++ join (u "," ++ newline_indent (S level)) (map (dump (S level)) l)
          ++ newline_indent level ++ u "]"
      end
  | JObj m =>
      match map_to_list (dump (S level) <$> m) with
      | [] => u "{}"
      | items =>
          u "{" ++ newline_indent (S level)
          ++ join (u "," ++ newline_indent (S level))
                  (map (fun kv => quote kv.1 ++ u ": " ++ kv.2) items)
          ++ newline_indent level ++ u "}"
      end
  end.

Definition json_dumps (v : json) : str := dump 0 v.

(** The lines of the members of a dictionary [level] levels deep, as
    [dump] writes them between the braces. *)
Definition item_text (level : nat) (kv : str * json) : str :=
  quote kv.1 ++ u ": " ++ dump (S level) kv.2.
Definition members_text (level : nat) (l : list (str * json)) : str :=
  join (u "," ++ newline_indent (S level)) (map (item_text level) l).

(** *** Reading *)

Definition is_ws (c : N) : bool :=
  (c =? 32) || (c =? 9) || (c =? 10) || (c =? 13).

Definition skip_ws (s : str) : str := dropwhile is_ws s.

Definition hexval (c : N) : option N :=
  if (48 <=? c) && (c <=? 57) then Some (c - 48)
  else if (97 <=? c) && (c <=? 102) then Some (c - 87)
  else if (65 <=? c) && (c <=? 70) then Some (c - 55)
  else None.

Definition hex4 (a b c d : N) : option N :=
  match hexval a, hexval b, hexval c, hexval d with
  | Some x, Some y, Some z, Some w => Some (((x * 16 + y) * 16 + z) * 16 + w)
  | _, _, _, _ => None
  end.

Definition is_high (c : N) : bool := (55296 <=? c) && (c <=? 56319).
Definition is_low (c : N) : bool := (56320 <=? c) && (c <=? 57343).

(** The character of a one-letter escape. *)
Definition short_escape (e : N) : option N :=
  if e =? 34 then Some 34
  else if e =? 92 then Some 92
  else if e =? 47 then Some 47
  else if e =? 98 then Some 8
  else if e =? 102 then Some 12
  else if e =? 110 then Some 10
  else if e =? 114 then Some 13
  else if e =? 116 then Some 9
  else None.

Definition cons_to (c : N) (r : option (str * str)) : option (str * str) :=
  match r with
  | Some (t, rest) => Some (c :: t, rest)
  | None => None
  end.

(** [scan_string s]: [s] begins after the opening quote; the string and
    the text after its closing quote.  A high surrogate escape followed by
    a low surrogate escape is one character. *)
Fixpoint scan_string (s : str) : option (str * str) :=
  match s with
  | [] => None
  | c :: s1 =>
      if c =? 34 then Some ([], s1)
      else if c =? 92 then
        match s1 with
        | [] => None
        | e :: s2 =>
            if e =? 117 then
              match s2 with
              | a :: b :: c' :: d :: s3 =>
                  match hex4 a b c' d with
                  | None => None
                  | Some uni =>
                      match s3 with
                      | b1 :: u1 :: s4 =>
                          if is_high uni && (b1 =? 92) && (u1 =? 117) then
                            match s4 with
                            | a2 :: b2 :: c2 :: d2 :: s5 =>
                                match hex4 a2 b2 c2 d2 with
                                | None => None
                                | Some uni2 =>
                                    if is_low uni2
                                    then cons_to (65536 + (uni - 55296) * 1024
                                                  + (uni2 - 56320))
                                                 (scan_string s5)
                                    else cons_to uni (scan_string s3)
                                end
                            | _ => None
                            end
                          else cons_to uni (scan_string s3)
                      | _ => cons_to uni (scan_string s3)
                      end
                  end
              | _ => None
              end
            else
              match short_escape e with
              | Some ch => cons_to ch (scan_string s2)
              | None => None
              end
        end
      else if c <? 32 then None
      else cons_to c (scan_string s1)
  end.

Definition is_digit (c : N) : bool := (48 <=? c) && (c <=? 57).

Fixpoint take_digits (s : str) : str * str :=
  match s with
  | [] => ([], [])
  | c :: s' =>
      if is_digit c
      then let (ds, r) := take_digits s' in (c :: ds, r)
      else ([], s)
  end.

Definition digits_value (ds : str) : Z :=
  fold_left (fun acc c => (acc * 10 + Z.of_N (c - 48))%Z) ds 0%Z.

(** The number at the start of [s]: an integer part, then a fraction and
    an exponent if they are complete. *)
Definition scan_number (s : str) : option (json * str) :=
  let (sign, s1) := match s with
                    | c :: t => if c =? 45 then ([45], t) else ([], s)
                    | [] => ([], s)
                    end in
  let int_part :=
    match s1 with
    | c :: t =>
        if c =? 48 then Some ([48], t)
        else if is_digit c then Some (take_digits s1)
        else None
    | [] => None
    end in
  match int_part with
  | None => None
  | Some (ds, r) =>
      let (frac, r1) :=
        match r with
        | c :: t =>
            if c =? 46
            then match take_digits t with
                 | ([], _) => ([], r)
                 | (fd, r') => (46 :: fd, r')
                 end
            else ([], r)
        | [] => ([], r)
        end in
      let (expo, r2) :=
        match r1 with
        | c :: t =>
            if (c =? 101) || (c =? 69)
            then let (sg, t') :=
                   match t with
                   | x :: t'' => if (x =? 43) || (x =? 45) then ([x], t'') else ([], t)
                   | [] => ([], t)
                   end in
                 match take_digits t' with
                 | ([], _) => ([], r1)
                 | (ed, r') => (c :: sg ++ ed, r')
                 end
            else ([], r1)
        | [] => ([], r1)
        end in
      match frac, expo with
      | [], [] =>
          Some (JInt (if sign is [] then digits_value ds
                      else (- digits_value ds)%Z), r2)
      | _, _ => Some (JFloat (float_of_text (sign ++ ds ++ frac ++ expo)), r2)
      end
  end.

Definition scan_literal (s : str) : option (json * str) :=
  match after_prefix (u "null") s with
  | Some r => Some (JNull, r)
  | None =>
  match after_prefix (u "true") s with
  | Some r => Some (JBool true, r)
  | None =>
  match after_prefix (u "false") s with
  | Some r => Some (JBool false, r)
  | None =>
  match scan_number s with
  | Some res => Some res
  | None =>
  match after_prefix (u "NaN") s with
  | Some r => Some (JFloat (float_of_text (u "NaN")), r)
  | None =>
  match after_prefix (u "Infinity") s with
  | Some r => Some (JFloat (float_of_text (u "Infinity")), r)
  | None =>
  match after_prefix (u "-Infinity") s with
  | Some r => Some (JFloat (float_of_text (u "-Infinity")), r)
  | None => None
  end end end end end end end.

(** The value at the start of [s] and the text after it.  [members] and
    [elements] stand after the opening bracket or a comma, white space
    skipped; the pairs read so far are kept last first, so that a key read
    twice keeps its last value. *)
Fixpoint parse_value (fuel : nat) (s : str) : option (json * str) :=
  match fuel with
  | O => None
  | S fuel =>
      match s with
      | [] => None
      | c :: s1 =>
          if c =? 34 then
            match scan_string s1 with
            | Some (t, r) => Some (JStr t, r)
            | None => None
            end
          else if c =? 123 then
            match skip_ws s1 with
            | d :: r => if d =? 125 then Some (JObj ∅, r)
                        else parse_members fuel (d :: r) []
            | [] => None
            end
          else if c =? 91 then
            match skip_ws s1 with
            | d :: r => if d =? 93 then Some (JArr [], r)
                        else parse_elements fuel (d :: r) []
            | [] => None
            end
          else scan_literal s
      end
  end
with parse_members (fuel : nat) (s : str) (acc : list (str * json))
  : option (json * str) :=
  match fuel with
  | O => None
  | S fuel =>
      match s with
      | c :: s1 =>
          if c =? 34 then
            match scan_string s1 with
            | Some (key, r) =>
                match skip_ws r with
                | colon :: r1 =>
                    if colon =? 58 then
                      match parse_value fuel (skip_ws r1) with
                      | Some (v, r2) =>
                          match skip_ws r2 with
                          | d :: r3 =>
                              if d =? 125
                              then Some (JObj (list_to_map ((key, v) :: acc)), r3)
                              else if d =? 44
                              then parse_members fuel (skip_ws r3) ((key, v) :: acc)
                              else None
                          | [] => None
                          end
                      | None => None
                      end
                    else None
                | [] => None
                end
            | None => None
            end
          else None
      | [] => None
      end
  end
with parse_elements (fuel : nat) (s : str) (acc : list json)
  : option (json * str) :=
  match fuel with
  | O => None
  | S fuel =>
      match parse_value fuel s with
      | Some (v, r) =>
          match skip_ws r with
          | d :: r1 =>
              if d =? 93 then Some (JArr (rev (v :: acc)), r1)
              else if d =? 44 then parse_elements fuel (skip_ws r1) (v :: acc)
              else None
          | [] => None
          end
      | None => None
      end
  end.

Definition json_loads (text : str) : option json :=
  let s := skip_ws text in
  match parse_value (S (length s)) s with
  | Some (v, r) =>
      match skip_ws r with
      | [] => Some v
      | _ :: _ => None
      end
  | None => None
  end.

End JsonCodec.

(** Sample tables for the floats, enough for documents without floats. *)
Definition no_float_text (_ : Z) : str := u "NaN".
Definition no_float_of_text (_ : str) : Z := 0%Z.

(** The strings that are read back as written: every code point is one of
    Unicode, and no high surrogate stands directly before a low one. *)
Fixpoint text_ok (s : str) : bool :=
  match s with
  | [] => true
  | c :: s' =>
      (c <? 1114112)
      && negb (is_high c && match s' with d :: _ => is_low d | [] => false end)
      && text_ok s'
  end.

(** The documents made of dictionaries and such strings. *)
Fixpoint storable (v : json) : bool :=
  match v with
  | JStr s => text_ok s
  | JObj m => map_fold (fun k x acc => text_ok k && storable x && acc) true m
  | _ => false
  end.

(** Quotients and remainders become unknowns of the linear problem. *)
Ltac hide_divmod :=
  repeat match goal with
         | |- context [?a mod ?b] => generalize dependent (a mod b); intros
         | |- context [?a / ?b] => generalize dependent (a / b); intros
         | H : context [?a mod ?b] |- _ => generalize dependent (a mod b); intros
         | H : context [?a / ?b] |- _ => generalize dependent (a / b); intros
         end.

(** * Facts *)

(** ** Strings *)

Lemma factor_refl s : factor s s.
Proof. exists [], []. by rewrite app_nil_r. Qed.

Lemma factor_trans a b c : factor a b -> factor b c -> factor a c.
Proof.
  intros (p & q & ->) (p' & q' & ->).
  exists (p' ++ p), (q ++ q'). by rewrite <- !app_assoc.
Qed.

Lemma factor_suffix a s : suffix a s -> factor a s.
Proof. intros [k ->]. exists k, []. by rewrite app_nil_r. Qed.

Lemma factor_prefix a s : prefix a s -> factor a s.
Proof. intros [k ->]. by exists [], k. Qed.

Lemma startswith_spec s p : startswith s p = true <-> prefix p s.
Proof.
  revert s. induction p as [|a p IH]; intros s; simpl.
  - split; [intros _; apply prefix_nil | reflexivity].
  - destruct s as [|c s].
    + split; [done | intros H; by apply prefix_nil_inv in H].
    + rewrite andb_true_iff, N.eqb_eq, IH. split.
      * intros [-> H]. by apply prefix_cons.
      * intros H. split; [by apply prefix_cons_inv_1 in H | by apply prefix_cons_inv_2 in H].
Qed.

Lemma str_in_spec sub s : str_in sub s = true <-> factor sub s.
Proof.
  induction s as [|c s IH].
  - simpl. rewrite orb_false_r, startswith_spec. split.
    + apply factor_prefix.
    + intros (p & q & H). symmetry in H.
      apply app_eq_nil in H as [-> H]. apply app_eq_nil in H as [-> ->]. done.
  - change (str_in sub (c :: s)) with (startswith (c :: s) sub || str_in sub s).
    rewrite orb_true_iff, startswith_spec, IH. split.
    + intros [H | (p & q & ->)]; [by apply factor_prefix | by exists (c :: p), q].
    + intros (p & q & H). destruct p as [|c' p].
      * left. exists q. done.
      * right. injection H as -> ->. by exists p, q.
Qed.

Lemma str_in_factor t a s : factor a s -> str_in t a = true -> str_in t s = true.
Proof. rewrite !str_in_spec. intros H1 H2. by eapply factor_trans. Qed.

Lemma str_in_factor_false t a s : factor a s -> str_in t s = false -> str_in t a = false.
Proof.
  intros H Hs. destruct (str_in t a) eqn:E; [|done].
  by rewrite (str_in_factor _ _ _ H E) in Hs.
Qed.

Lemma dropwhile_suffix p s : suffix (dropwhile p s) s.
Proof.
  induction s as [|c s IH]; simpl; [done|].
  destruct (p c); [by apply suffix_cons_r | done].
Qed.

Lemma rstrip_prefix s : prefix (rstrip s) s.
Proof.
  unfold rstrip. destruct (dropwhile_suffix isspace (rev s)) as [k Hk].
  exists (rev k). apply (f_equal (@rev N)) in Hk.
  rewrite rev_involutive, rev_app_distr in Hk. done.
Qed.

Lemma strip_factor s : factor (strip s) s.
Proof.
  unfold strip. eapply factor_trans.
  - apply factor_prefix, rstrip_prefix.
  - apply factor_suffix, dropwhile_suffix.
Qed.

Lemma first_piece_prefix sep s : prefix (first_piece sep s) s.
Proof.
  unfold first_piece. induction s as [|c s IH]; simpl; [done|].
  destruct (c =? sep); [apply prefix_nil|].
  destruct (split sep s) as [|l ls]; [|by apply prefix_cons].
  apply prefix_cons, prefix_nil.
Qed.

Lemma first_piece_no_sep sep s : ~ In sep (first_piece sep s).
Proof.
  unfold first_piece. induction s as [|c s IH]; simpl; [tauto|].
  destruct (N.eqb_spec c sep) as [->|Hne]; [simpl; tauto|].
  destruct (split sep s) as [|l ls]; simpl in *; intuition.
Qed.

Lemma str_in_singleton c s : str_in [c] s = true <-> In c s.
Proof.
  rewrite str_in_spec. split.
  - intros (p & q & ->). apply in_or_app. right. by left.
  - intros H. apply in_split in H as (p & q & ->). by exists p, q.
Qed.

Lemma factor_In a s c : factor a s -> In c a -> In c s.
Proof.
  intros (p & q & ->) H. apply in_or_app. right. apply in_or_app. by left.
Qed.

(** *** Deleting the bare fence *)

Lemma remove_fence_nil : remove_all FENCE [] = [].
Proof. reflexivity. Qed.

Lemma remove_fence_hit t :
  remove_all FENCE (BACKTICK :: BACKTICK :: BACKTICK :: t) = remove_all FENCE t.
Proof. reflexivity. Qed.

Lemma remove_fence_miss c s :
  startswith (c :: s) FENCE = false ->
  remove_all FENCE (c :: s) = c :: remove_all FENCE s.
Proof. unfold remove_all. simpl. intros ->. done. Qed.

(** A run of backticks is cut down three at a time, and the text between
    two runs is kept, so no three backticks are left side by side. *)
Lemma remove_fence_clean s : str_in FENCE (remove_all FENCE s) = false.
Proof.
  remember (length s) as n eqn:Hn. revert s Hn.
  induction n as [n IH] using lt_wf_ind. intros s ->.
  destruct s as [|c1 s]; [reflexivity|].
  destruct (N.eqb_spec c1 BACKTICK) as [->|H1].
  2:{ rewrite remove_fence_miss.
      - change (str_in FENCE (c1 :: ?r)) with (startswith (c1 :: r) FENCE || str_in FENCE r).
        rewrite (IH (length s)); [|simpl; lia|done].
        simpl. apply N.eqb_neq in H1. by rewrite H1.
      - simpl. apply N.eqb_neq in H1. by rewrite H1. }
  destruct s as [|c2 s]; [reflexivity|].
  destruct (N.eqb_spec c2 BACKTICK) as [->|H2].
  2:{ apply N.eqb_neq in H2.
      rewrite remove_fence_miss by (simpl; by rewrite H2).
      rewrite remove_fence_miss by (simpl; by rewrite H2).
      change (str_in FENCE (?a :: ?b :: ?r))
        with (startswith (a :: b :: r) FENCE || (startswith (b :: r) FENCE || str_in FENCE r)).
      rewrite (IH (length s)); [|simpl; lia|done].
      simpl. by rewrite H2. }
  destruct s as [|c3 s]; [reflexivity|].
  destruct (N.eqb_spec c3 BACKTICK) as [->|H3].
  - rewrite remove_fence_hit. apply (IH (length s)); [simpl; lia|done].
  - apply N.eqb_neq in H3.
    rewrite remove_fence_miss by (simpl; by rewrite H3).
    rewrite remove_fence_miss by (simpl; by rewrite H3).
    rewrite remove_fence_miss by (simpl; by rewrite H3).
    change (str_in FENCE (?a :: ?b :: ?c :: ?r))
      with (startswith (a :: b :: c :: r) FENCE
            || (startswith (b :: c :: r) FENCE
                || (startswith (c :: r) FENCE || str_in FENCE r))).
    rewrite (IH (length s)); [|simpl; lia|done].
    simpl. by rewrite H3.
Qed.

(** *** [clean_completion] *)

Lemma clean_completion_factor raw p :
  factor (clean_completion raw p) (scrub raw).
Proof.
  unfold clean_completion.
  eapply factor_trans; [apply strip_factor|].
  eapply factor_trans; [apply factor_prefix, first_piece_prefix|].
  eapply factor_trans; [apply factor_suffix, dropwhile_suffix|].
  destruct (_ && _).
  - eapply factor_trans; [apply strip_factor|].
    eapply factor_trans; [apply factor_suffix, suffix_drop|].
    apply strip_factor.
  - apply strip_factor.
Qed.

Lemma clean_completion_no_newline raw p :
  str_in [NL] (clean_completion raw p) = false.
Proof.
  destruct (str_in _ _) eqn:E; [|done].
  apply str_in_singleton in E. exfalso.
  unfold clean_completion in E.
  eapply factor_In in E; [|apply strip_factor].
  by apply first_piece_no_sep in E.
Qed.

(** *** Deleting the control tokens *)

Lemma remove_from_skip old k s :
  remove_from old k s = remove_from old O (drop k s).
Proof.
  revert k. induction s as [|c s IH]; intros k.
  - by destruct k.
  - destruct k as [|k]; [done|]. simpl. apply IH.
Qed.

Lemma remove_all_miss f o c s :
  startswith (c :: s) (f :: o) = false ->
  remove_all (f :: o) (c :: s) = c :: remove_all (f :: o) s.
Proof. intros H. unfold remove_all. cbn [remove_from]. by rewrite H. Qed.

Lemma remove_all_hit f o c s :
  startswith (c :: s) (f :: o) = true ->
  remove_all (f :: o) (c :: s) = remove_all (f :: o) (drop (length o) s).
Proof.
  intros H. unfold remove_all. cbn [remove_from]. rewrite H.
  cbn [length Nat.pred]. apply remove_from_skip.
Qed.

(** Characters that differ from the first character of [old] are copied. *)
Lemma remove_all_copy f o body rest :
  forallb (fun x => negb (x =? f)) body = true ->
  remove_all (f :: o) (body ++ rest) = body ++ remove_all (f :: o) rest.
Proof.
  induction body as [|x body IH]; [done|].
  cbn [forallb]. rewrite andb_true_iff. intros [Hx Hb].
  rewrite <- !app_comm_cons, remove_all_miss, IH; [done | done |].
  cbn [startswith]. apply negb_true_iff in Hx. by rewrite Hx.
Qed.

Lemma settled_drop toks n s : settled toks s = true -> settled toks (drop n s) = true.
Proof.
  revert s. induction n as [|n IH]; intros s; [done|].
  destruct s as [|c s]; [done|]. cbn [settled]. rewrite andb_true_iff.
  intros [_ H]. by apply IH.
Qed.

Lemma settled_suffix toks a s : settled toks (a ++ s) = true -> settled toks s = true.
Proof.
  intros H. apply (settled_drop toks (length a)) in H. by rewrite drop_app_length in H.
Qed.

(** The tokens still to delete begin with [<] and do not hold [f] after
    it. *)
Definition tokens_clear_of (f : N) (toks : list str) : bool :=
  forallb (fun tok =>
             match tok with
             | [] => false
             | c :: body => (c =? LT) && forallb (fun x => negb (x =? f)) body
             end) toks.

(** One [str.replace] keeps every [<] settled, for the tokens that are
    left. *)
Lemma remove_all_settled f o toks toks' :
  opens_marker f = true ->
  (forall tok, In tok toks -> tok = f :: o \/ In tok toks') ->
  tokens_clear_of f toks' = true ->
  forall s, settled toks s = true -> settled toks' (remove_all (f :: o) s) = true.
Proof.
  intros Hf Hsub Hclear s.
  remember (length s) as n eqn:Hn. revert s Hn.
  induction n as [n IH] using lt_wf_ind. intros s -> Hs.
  destruct s as [|c s]; [done|].
  destruct (startswith (c :: s) (f :: o)) eqn:E.
  - rewrite remove_all_hit by done.
    apply (IH (length (drop (length o) s))).
    + rewrite length_drop. simpl. lia.
    + done.
    + cbn [settled] in Hs. apply andb_true_iff in Hs as [_ Hs].
      by apply settled_drop.
  - rewrite remove_all_miss by done.
    cbn [settled] in Hs. apply andb_true_iff in Hs as [Hh Hs].
    assert (Ht : settled toks' (remove_all (f :: o) s) = true).
    { apply (IH (length s)); [simpl; lia | done | done]. }
    cbn [settled]. rewrite Ht, andb_true_r.
    unfold head_settled in *.
    destruct (c =? LT) eqn:Ec; [|done]. cbn [negb orb] in *.
    apply N.eqb_eq in Ec as ->.
    apply orb_true_iff in Hh as [Hh | Hh].
    + apply existsb_exists in Hh as (tok & Hin & Htok).
      destruct (Hsub tok Hin) as [-> | Hin']; [congruence|].
      assert (Hc : exists body, tok = LT :: body
                                /\ forallb (fun x => negb (x =? f)) body = true).
      { unfold tokens_clear_of in Hclear. rewrite forallb_forall in Hclear.
        specialize (Hclear tok Hin'). destruct tok as [|c body]; [done|].
        apply andb_true_iff in Hclear as [H1 H2]. apply N.eqb_eq in H1 as ->.
        by exists body. }
      destruct Hc as (body & -> & Hb).
      apply startswith_spec in Htok as [rest Hrest].
      injection Hrest as ->.
      rewrite remove_all_copy by done.
      apply orb_true_iff. left. apply existsb_exists.
      exists (LT :: body). split; [done|].
      apply startswith_spec. by eexists.
    + destruct s as [|d s]; [by rewrite orb_true_r|].
      assert (Hd : (d =? f) = false).
      { destruct (N.eqb_spec d f) as [->|]; [|done].
        rewrite Hf in Hh. done. }
      rewrite remove_all_miss by (cbn [startswith]; by rewrite Hd).
      by rewrite Hh, orb_true_r.
Qed.

(** With every [<] settled and no token left to delete, no control token
    occurs. *)
Lemma settled_no_token s token :
  settled [] s = true -> In token control_tokens -> str_in token s = false.
Proof.
  intros Hs Hin. destruct (str_in token s) eqn:E; [|done].
  apply str_in_spec in E as (a & b & ->).
  apply settled_suffix in Hs.
  simpl in Hin. destruct Hin as [<- | [<- | [<- | [<- | []]]]]; discriminate Hs.
Qed.

Lemma scrub_settled raw : whole_tokens raw = true -> settled [] (scrub raw) = true.
Proof.
  unfold whole_tokens, scrub, control_tokens. cbn [fold_left]. intros H.
  apply (remove_all_settled BACKTICK [BACKTICK; BACKTICK] [] []);
    [done | by intros tok [] | done |].
  apply (remove_all_settled BACKTICK (BACKTICK :: BACKTICK :: u "python") [] []);
    [done | by intros tok [] | done |].
  apply (remove_all_settled LT (tl END_OF_TEXT) [END_OF_TEXT] []);
    [done | intros tok [<- | []]; by left | done |].
  apply (remove_all_settled LT (tl FIM_END) [FIM_END; END_OF_TEXT] [END_OF_TEXT]);
    [done | intros tok [<- | Hin]; [by left | by right] | done |].
  apply (remove_all_settled LT (tl FIM_HOLE) [FIM_HOLE; FIM_END; END_OF_TEXT]
           [FIM_END; END_OF_TEXT]);
    [done | intros tok [<- | Hin]; [by left | by right] | done |].
  apply (remove_all_settled LT (tl FIM_BEGIN)
           [FIM_BEGIN; FIM_HOLE; FIM_END; END_OF_TEXT]
           [FIM_HOLE; FIM_END; END_OF_TEXT]);
    [done | intros tok [<- | Hin]; [by left | by right] | done |].
  exact H.
Qed.




(** ** Session turn log *)

Lemma last_n_length {A} n (l : list A) : length (last_n n l) = Nat.min n (length l).
Proof. unfold last_n. rewrite length_drop. lia. Qed.

Lemma last_n_all {A} n (l : list A) : (length l <= n)%nat -> last_n n l = l.
Proof. intros H. unfold last_n. replace (length l - n)%nat with O by lia. done. Qed.

Lemma last_n_app {A} n (l k : list A) :
  last_n n (last_n n l ++ k) = last_n n (l ++ k).
Proof.
  unfold last_n. rewrite !length_app, length_drop.
  set (d := (length l - n)%nat).
  replace (length l + length k - n)%nat
    with (d + (length l - d + length k - n))%nat by lia.
  rewrite <- drop_drop. f_equal.
  rewrite drop_app_le by lia. done.
Qed.

Lemma add_turn_eq h r c :
  (length h <= MAX_TURNS * 2)%nat ->
  add_turn h r c = last_n (MAX_TURNS * 2) (h ++ [Turn r c]).
Proof.
  intros H. unfold add_turn, last_n. rewrite length_app. simpl length.
  destruct (Nat.ltb_spec (MAX_TURNS * 2) (length h + 1)) as [Hlt|Hge].
  - replace (length h + 1 - MAX_TURNS * 2)%nat with 1%nat by lia. done.
  - replace (length h + 1 - MAX_TURNS * 2)%nat with 0%nat by lia. done.
Qed.

Lemma add_turn_length h r c :
  (length h <= MAX_TURNS * 2)%nat ->
  (length (add_turn h r c) <= MAX_TURNS * 2)%nat.
Proof. intros H. rewrite add_turn_eq, last_n_length by done. lia. Qed.

Lemma add_turns_eq ts : forall h,
  (length h <= MAX_TURNS * 2)%nat ->
  add_turns h ts = last_n (MAX_TURNS * 2) (h ++ ts).
Proof.
  induction ts as [|[r c] ts IH]; intros h H.
  - simpl. rewrite app_nil_r. symmetry. by apply last_n_all.
  - change (add_turns h (Turn r c :: ts)) with (add_turns (add_turn h r c) ts).
    rewrite IH by by apply add_turn_length.
    rewrite add_turn_eq by done. rewrite last_n_app, <- app_assoc. done.
Qed.

(** C2.  From a log of at most [2 * MAX_TURNS] = 20 entries, any run of
    [add_turn] calls leaves at most 20 entries, and they are the last 20
    of everything appended, in the order of appending; one call on a full
    log drops the single oldest entry, and on a shorter log drops
    nothing. *)
Theorem add_turn_bounded_fifo (h ts : list turn) :
  (length h <= 2 * MAX_TURNS)%nat ->
  (length (add_turns h ts) <= 2 * MAX_TURNS)%nat
  /\ (2 * MAX_TURNS = 20)%nat
  /\ add_turns h ts = drop (length (h ++ ts) - 20) (h ++ ts)
  /\ (forall r c,
        add_turn h r c =
          if Nat.eqb (length h) 20 then drop 1 h ++ [Turn r c]
          else h ++ [Turn r c]).
Proof.
  intros H. assert (H' : (length h <= MAX_TURNS * 2)%nat) by lia.
  split; [|split; [reflexivity|split]].
  - rewrite add_turns_eq, last_n_length by done. lia.
  - by rewrite add_turns_eq.
  - intros r c. unfold add_turn. rewrite length_app. simpl length.
    change (MAX_TURNS * 2)%nat with 20%nat in *.
    destruct (Nat.eqb_spec (length h) 20) as [E|E].
    + destruct (Nat.ltb_spec 20 (length h + 1)); [|lia].
      destruct h; [done|]. done.
    + destruct (Nat.ltb_spec 20 (length h + 1)); [lia|done].
Qed.

Lemma add_turn_bounded_fifo_witness :
  let full := alternating (map (fun i => [N.of_nat i]) (seq 0 20)) in
  let more := [Turn (u "user") (u "u1"); Turn (u "assistant") (u "a1");
               Turn (u "user") (u "u2")] in
  length full = 20%nat
  /\ add_turns full more = drop 3 full ++ more
  /\ add_turn full (u "user") (u "u1") = drop 1 full ++ [Turn (u "user") (u "u1")].
Proof.
  intros full more.
  destruct (add_turn_bounded_fifo full more ltac:(vm_compute; lia))
    as (_ & _ & H3 & H4).
  split; [reflexivity|]. split.
  - rewrite H3. vm_compute. reflexivity.
  - rewrite H4. reflexivity.
Defined.

(** C8.  From the empty log, 25 [add_turn] calls with alternating roles
    leave exactly 20 entries, and [get_history_messages] with the prompt
    [sys] then returns 21 messages: the system message first, then the last
    20 turns appended, oldest first. *)
Theorem history_after_25_turns (contents : list str) :
  length contents = 25%nat ->
  let h := add_turns [] (alternating contents) in
  length h = 20%nat
  /\ length (get_history_messages h (u "sys")) = 21%nat
  /\ get_history_messages h (u "sys")
     = Turn (u "system") (u "sys") :: drop 5 (alternating contents).
Proof.
  intros H h.
  assert (Hh : h = drop 5 (alternating contents)).
  { unfold h. rewrite add_turns_eq by (simpl; lia). unfold last_n. simpl app.
    unfold alternating. rewrite length_imap, H. reflexivity. }
  assert (Hl : length h = 20%nat).
  { rewrite Hh, length_drop. unfold alternating. rewrite length_imap. lia. }
  split; [done|].
  unfold get_history_messages. rewrite last_n_all by (rewrite Hl; simpl; lia).
  split; [simpl; lia | by rewrite Hh].
Qed.

Lemma history_after_25_turns_witness :
  length (add_turns [] (alternating (map (fun i => [N.of_nat i]) (seq 0 25)))) = 20%nat.
Proof.
  apply (history_after_25_turns (map (fun i => [N.of_nat i]) (seq 0 25))).
  reflexivity.
Defined.

(** ** [_clean_code_lines] *)

Section CleanCodeLinesFacts.

Variable isupper : N -> bool.

Lemma existing_set_spec all_lines s :
  s ∈ existing_set all_lines <-> s <> [] /\ exists e, In e all_lines /\ s = strip e.
Proof.
  unfold existing_set.
  rewrite elem_of_list_to_set, list_elem_of_filter, list_elem_of_In, in_map_iff.
  split; intros [H (e & H1 & H2)]; (split; [done|]); exists e; done.
Qed.

Lemma empty_not_existing all_lines : [] ∉ existing_set all_lines.
Proof. rewrite existing_set_spec. intros [H _]. by apply H. Qed.

Lemma strip_nil : strip [] = [].
Proof. reflexivity. Qed.

Lemma clean_line_blank b : strip b = [] -> clean_line isupper b = Some [].
Proof. unfold clean_line. by intros ->. Qed.

Lemma clean_code_of_lines_app l1 l2 all_lines :
  clean_code_of_lines isupper (l1 ++ l2) all_lines
  = clean_code_of_lines isupper l1 all_lines
    ++ clean_code_of_lines isupper l2 all_lines.
Proof. unfold clean_code_of_lines. by rewrite omap_app, filter_app. Qed.

Lemma clean_code_of_lines_blank b ls all_lines :
  strip b = [] ->
  clean_code_of_lines isupper (b :: ls) all_lines
  = [] :: clean_code_of_lines isupper ls all_lines.
Proof.
  intros H. unfold clean_code_of_lines. simpl omap.
  rewrite (clean_line_blank b H). simpl.
  apply filter_cons_True. rewrite strip_nil. apply empty_not_existing.
Qed.

(** C3.  Every line returned by [_clean_code_lines] whose trimmed text
    is not empty has a trimmed text different from the trimmed text of
    every line of [all_lines]. *)
Theorem clean_code_lines_not_existing generated all_lines l e :
  In l (_clean_code_lines isupper generated all_lines) ->
  strip l <> [] ->
  In e all_lines ->
  strip l <> strip e.
Proof.
  intros Hl Hne He Heq.
  unfold _clean_code_lines, clean_code_of_lines in Hl.
  apply list_elem_of_In, list_elem_of_filter in Hl as [Hl _].
  apply Hl, existing_set_spec. split; [done|]. by exists e.
Qed.

(** C9, as amended.  Every blank line of [generated] (a line whose
    trimmed text is empty) gives exactly one entry of the result, at the
    place of the line among the surviving lines, and that entry is the
    empty string: a line of white space is replaced, not kept as it
    is. *)
Theorem clean_code_lines_blank generated all_lines before b after :
  split NL generated = before ++ b :: after ->
  strip b = [] ->
  _clean_code_lines isupper generated all_lines
  = clean_code_of_lines isupper before all_lines
    ++ [] :: clean_code_of_lines isupper after all_lines.
Proof.
  intros Hs Hb. unfold _clean_code_lines.
  by rewrite Hs, clean_code_of_lines_app, clean_code_of_lines_blank.
Qed.

End CleanCodeLinesFacts.

Lemma clean_code_lines_not_existing_witness :
  strip (u "x = df.sum()") <> strip (u "x = 1").
Proof.
  apply (clean_code_lines_not_existing isupper_ascii
           (u "import pandas as pd" ++ [NL] ++ u "x = df.sum()" ++ [NL])
           [u "x = 1"] (u "x = df.sum()") (u "x = 1")).
  - vm_compute. tauto.
  - vm_compute. discriminate.
  - simpl. tauto.
Defined.

Lemma clean_code_lines_blank_witness :
  _clean_code_lines isupper_ascii (u "a = 1" ++ [NL] ++ u "  " ++ [NL] ++ u "b = 2") []
  = [u "a = 1"; []; u "b = 2"].
Proof.
  rewrite (clean_code_lines_blank isupper_ascii
             (u "a = 1" ++ [NL] ++ u "  " ++ [NL] ++ u "b = 2") []
             [u "a = 1"] (u "  ") [u "b = 2"]).
  - vm_compute. reflexivity.
  - vm_compute. reflexivity.
  - vm_compute. reflexivity.
Defined.

(** C9 fails as stated: a line of two spaces is blank, and the result holds
    the empty string in its place, not the line. *)
Lemma clean_code_lines_blank_changed :
  split NL (u "  ") = [u "  "]
  /\ strip (u "  ") = []
  /\ _clean_code_lines isupper_ascii (u "  ") [] = [[]]
  /\ ~ In (u "  ") (_clean_code_lines isupper_ascii (u "  ") []).
Proof.
  repeat split; try (vm_compute; reflexivity).
  vm_compute. intros [H|[]]. discriminate.
Qed.

(** ** Persisted context store and snippet cache *)

Section StoreFacts.

Variable json_dump : json -> str.
Variable json_load : str -> option json.

(** C4.  When the file is absent, or exists and cannot be read, or holds
    a text that does not parse, [_load_context] returns the empty
    document, with two empty tables; being a total function it raises
    nothing. *)
Theorem load_context_failure (f : file_state) :
  f = Absent \/ f = Unreadable
  \/ (exists text, f = Contents text /\ json_load text = None) ->
  _load_context json_load f = empty_document
  /\ table_of empty_document (u "snippets") = Some (JObj ∅)
  /\ table_of empty_document (u "file_summaries") = Some (JObj ∅)
  /\ (forall name, name <> u "snippets" -> name <> u "file_summaries" ->
        table_of empty_document name = None).
Proof.
  intros H. split; [|split; [|split]].
  - destruct H as [-> | [-> | (text & -> & H)]]; simpl; [done | done |].
    by rewrite H.
  - apply lookup_insert_eq.
  - simpl. rewrite lookup_insert_ne by discriminate. apply lookup_insert_eq.
  - intros name H1 H2. simpl.
    rewrite !lookup_insert_ne by done. apply lookup_empty.
Qed.

(** What [_save_context] does to the state when the store is healthy. *)
Lemma save_context_ok o ctx st :
  makedirs_ok o = true -> write o = WriteOk ->
  _save_context json_dump o ctx st
  = (inr tt, State (_turn_history st) (_snippet_cache st) (_disk_context st)
                   (Contents (json_dump ctx))).
Proof. intros H1 H2. unfold _save_context. rewrite H1, H2. reflexivity. Qed.

(** [_save_context] writes the file only. *)
Lemma save_context_frame o ctx st :
  let st' := snd (_save_context json_dump o ctx st) in
  _turn_history st' = _turn_history st
  /\ _snippet_cache st' = _snippet_cache st
  /\ _disk_context st' = _disk_context st.
Proof.
  unfold _save_context. destruct (makedirs_ok o); [|done].
  destruct (write o); done.
Qed.

(** [set_entry] changes one table of the document and nothing else. *)
Lemma set_entry_frame table key entry st :
  let st' := snd (set_entry table key entry st) in
  _turn_history st' = _turn_history st
  /\ _snippet_cache st' = _snippet_cache st
  /\ context_file st' = context_file st
  /\ (forall name, name <> table ->
        table_of (_disk_context st') name = table_of (_disk_context st) name).
Proof.
  unfold set_entry, bind, get_state. simpl.
  destruct (_disk_context st) as [| | | | | |m] eqn:E; simpl; rewrite ?E; try done.
  destruct (default (JObj ∅) (m !! table)); simpl; rewrite ?E; try done.
  repeat split. intros name H. by rewrite lookup_insert_ne.
Qed.

(** The three statements of [cache_snippet], run from [st]. *)
Lemma cache_snippet_run o now comment code st :
  cache_snippet json_dump o now comment code st
  = match set_entry (u "snippets") comment
            (JObj (<[u "code" := JStr code]> (<[u "timestamp" := JStr now]> ∅)))
            (State (_turn_history st) (<[comment := code]> (_snippet_cache st))
                   (_disk_context st) (context_file st)) with
    | (inl e, st2) => (inl e, st2)
    | (inr _, st2) => _save_context json_dump o (_disk_context st2) st2
    end.
Proof. reflexivity. Qed.

Lemma store_file_summary_run o now filepath summary st :
  store_file_summary json_dump o now filepath summary st
  = match set_entry (u "file_summaries") filepath
            (JObj (<[u "summary" := JStr summary]> (<[u "timestamp" := JStr now]> ∅)))
            st with
    | (inl e, st2) => (inl e, st2)
    | (inr _, st2) => _save_context json_dump o (_disk_context st2) st2
    end.
Proof. reflexivity. Qed.

Lemma cache_snippet_memory o now comment code st :
  _snippet_cache (snd (cache_snippet json_dump o now comment code st))
  = <[comment := code]> (_snippet_cache st).
Proof.
  rewrite cache_snippet_run.
  set (entry := JObj _). set (st1 := State _ _ _ _).
  pose proof (set_entry_frame (u "snippets") comment entry st1) as (_ & H & _).
  destruct (set_entry (u "snippets") comment entry st1) as [[e|[]] st2];
    cbn [snd] in *; [done|].
  pose proof (save_context_frame o (_disk_context st2) st2) as (_ & H' & _).
  cbn zeta in H'. by rewrite H', H.
Qed.

(** C5.  After [cache_snippet] with the key [k] and the code [v],
    [get_cached_snippet k] returns [v], whatever the file system did
    with the write (success, a swallowed failure, or a failing
    [os.makedirs]) and whatever the document held: the dictionary in
    memory is written first and read first. *)
Theorem cache_put_get (o : io) (now k v : str) (st : state) :
  get_cached_snippet k (snd (cache_snippet json_dump o now k v st))
  = inr (JStr v).
Proof.
  unfold get_cached_snippet.
  by rewrite cache_snippet_memory, lookup_insert_eq.
Qed.

(** C10.  [cache_snippet] leaves the turn log and the table of file
    summaries as they were; [store_file_summary] leaves the turn log and
    both tiers of the snippets (the dictionary in memory and the table
    of the document) as they were. *)
Theorem writes_frame (o : io) (now key value : str) (st : state) :
  (let st' := snd (cache_snippet json_dump o now key value st) in
   _turn_history st' = _turn_history st
   /\ table_of (_disk_context st') (u "file_summaries")
      = table_of (_disk_context st) (u "file_summaries"))
  /\
  (let st' := snd (store_file_summary json_dump o now key value st) in
   _turn_history st' = _turn_history st
   /\ _snippet_cache st' = _snippet_cache st
   /\ table_of (_disk_context st') (u "snippets")
      = table_of (_disk_context st) (u "snippets")).
Proof.
  split.
  - cbn zeta. rewrite cache_snippet_run.
    set (entry := JObj _). set (st1 := State _ _ _ _).
    pose proof (set_entry_frame (u "snippets") key entry st1) as (H1 & _ & _ & H2).
    specialize (H2 (u "file_summaries") ltac:(discriminate)).
    destruct (set_entry (u "snippets") key entry st1) as [[e|[]] st2];
      cbn [snd] in *; [by rewrite H1, H2|].
    pose proof (save_context_frame o (_disk_context st2) st2) as (H3 & _ & H4).
    cbn zeta in H3, H4. by rewrite H3, H4, H1, H2.
  - cbn zeta. rewrite store_file_summary_run. set (entry := JObj _).
    pose proof (set_entry_frame (u "file_summaries") key entry st) as (H1 & H1' & _ & H2).
    specialize (H2 (u "snippets") ltac:(discriminate)).
    destruct (set_entry (u "file_summaries") key entry st) as [[e|[]] st2];
      cbn [snd] in *; [by rewrite H1, H1', H2|].
    pose proof (save_context_frame o (_disk_context st2) st2) as (H3 & H3' & H4).
    cbn zeta in H3, H3', H4. by rewrite H3, H3', H4, H1, H1', H2.
Qed.

End StoreFacts.

Lemma load_context_failure_witness :
  _load_context load_braces (Contents (u "{oops")) = empty_document.
Proof.
  apply (load_context_failure load_braces (Contents (u "{oops"))).
  right. right. exists (u "{oops"). split; reflexivity.
Defined.

(** ** [_extract_code] *)

Lemma lazy_group_eq s : match_here [RGroupLazy; RLit FENCE] s = before_fence s.
Proof.
  induction s as [|c s IH]; [reflexivity|].
  change (match_here [RGroupLazy; RLit FENCE] (c :: s))
    with (match match_here [RLit FENCE] (c :: s) with
          | Some _ => Some []
          | None => option_map (cons c) (match_here [RGroupLazy; RLit FENCE] s)
          end).
  rewrite IH. cbn [match_here before_fence]. unfold after_prefix.
  destruct (startswith (c :: s) FENCE); reflexivity.
Qed.

Lemma greedy_group_eq s : match_here [RGroupGreedy] s = Some s.
Proof.
  induction s as [|c s IH]; [reflexivity|].
  change (match_here [RGroupGreedy] (c :: s))
    with (match match_here [RGroupGreedy] s with
          | Some g => Some (c :: g)
          | None => match match_here [] (c :: s) with
                    | Some _ => Some []
                    | None => None
                    end
          end).
  by rewrite IH.
Qed.

Lemma startswith_app s a b :
  startswith s (a ++ b) = startswith s a && startswith (drop (length a) s) b.
Proof.
  revert s. induction a as [|x a IH]; intros s; [reflexivity|].
  destruct s as [|c s]; [reflexivity|].
  simpl. by rewrite IH, andb_assoc.
Qed.

Lemma python_not_newline r :
  startswith r (u "python") = true -> startswith r [NL] = false.
Proof.
  intros H. apply startswith_spec in H as [k ->]. reflexivity.
Qed.

(** Both patterns begin with an opening marker: the backtracking over the
    optional tag finds it exactly when [after_opening] does. *)
Lemma match_opening q s :
  match_here (RLit FENCE :: ROpt (u "python") :: RLit [NL] :: q) s
  = match after_opening s with
    | Some rest => match_here q rest
    | None => None
    end.
Proof.
  cbn [match_here]. unfold after_opening, after_prefix, OPEN_PYTHON, OPEN_BARE.
  rewrite !startswith_app.
  change (length FENCE) with 3%nat. change (length (u "python")) with 6%nat.
  change (length (FENCE ++ u "python" ++ [NL])) with 10%nat.
  change (length (FENCE ++ [NL])) with 4%nat.
  change (length [NL]) with 1%nat.
  rewrite !drop_drop. simpl Nat.add.
  destruct (startswith s FENCE); [|reflexivity]. cbn [andb].
  destruct (startswith (drop 3 s) (u "python")) eqn:Hp; cbn [andb].
  - rewrite !drop_drop. simpl Nat.add. rewrite (python_not_newline _ Hp).
    destruct (startswith (drop 9 s) [NL]); [|reflexivity].
    by destruct (match_here q (drop 10 s)).
  - destruct (startswith (drop 3 s) [NL]); rewrite ?drop_drop; reflexivity.
Qed.

Lemma match_fenced s :
  match_here RE_FENCED s
  = match after_opening s with
    | Some rest => before_fence rest
    | None => None
    end.
Proof.
  unfold RE_FENCED. rewrite match_opening.
  destruct (after_opening s); [apply lazy_group_eq | reflexivity].
Qed.

Lemma match_open_fence s : match_here RE_OPEN_FENCE s = after_opening s.
Proof.
  unfold RE_OPEN_FENCE. rewrite match_opening.
  destruct (after_opening s); [apply greedy_group_eq | reflexivity].
Qed.

Lemma re_search_nil p :
  re_search p [] = match match_here p [] with Some g => Some g | None => None end.
Proof. reflexivity. Qed.

Lemma re_search_cons p c s :
  re_search p (c :: s)
  = match match_here p (c :: s) with Some g => Some g | None => re_search p s end.
Proof. reflexivity. Qed.

Lemma find_opening_nil : find_opening [] = None.
Proof. reflexivity. Qed.

Lemma find_opening_cons c s :
  find_opening (c :: s)
  = match after_opening (c :: s) with
    | Some rest => Some rest
    | None => find_opening s
    end.
Proof. reflexivity. Qed.

Lemma search_open_fence s : re_search RE_OPEN_FENCE s = find_opening s.
Proof.
  induction s as [|c s IH]; [reflexivity|].
  rewrite re_search_cons, find_opening_cons, match_open_fence, IH.
  by destruct (after_opening _).
Qed.

Lemma before_fence_none s : before_fence s = None <-> str_in FENCE s = false.
Proof.
  induction s as [|c s IH]; [done|].
  change (str_in FENCE (c :: s)) with (startswith (c :: s) FENCE || str_in FENCE s).
  cbn [before_fence]. destruct (startswith (c :: s) FENCE); [done|].
  cbn [orb]. rewrite <- IH. destruct (before_fence s); done.
Qed.

Lemma after_prefix_inv p s rest : after_prefix p s = Some rest -> s = p ++ rest.
Proof.
  unfold after_prefix. destruct (startswith s p) eqn:E; [|done].
  apply startswith_spec in E as [k ->]. intros [= <-].
  by rewrite drop_app_length.
Qed.

Lemma after_opening_inv s rest :
  after_opening s = Some rest -> s = OPEN_PYTHON ++ rest \/ s = OPEN_BARE ++ rest.
Proof.
  unfold after_opening. destruct (after_prefix OPEN_PYTHON s) eqn:E.
  - intros [= <-]. left. by apply after_prefix_inv.
  - intros H. right. by apply after_prefix_inv.
Qed.

(** A match of the fenced pattern at the start of [t] needs a fence after
    the first four characters of [t]. *)
Lemma match_fenced_has_fence t g :
  match_here RE_FENCED t = Some g -> str_in FENCE (drop 4 t) = true.
Proof.
  rewrite match_fenced. destruct (after_opening t) as [rest|] eqn:E; [|done].
  intros H. assert (Hf : str_in FENCE rest = true).
  { destruct (str_in FENCE rest) eqn:F; [done|].
    apply before_fence_none in F. congruence. }
  apply after_opening_inv in E as [-> | ->].
  - eapply str_in_factor; [|exact Hf]. apply factor_suffix.
    by exists (u "ython" ++ [NL]).
  - exact Hf.
Qed.

Lemma search_fenced_has_fence t g :
  re_search RE_FENCED t = Some g -> str_in FENCE (drop 4 t) = true.
Proof.
  induction t as [|c t IH].
  - rewrite re_search_nil. destruct (match_here RE_FENCED []) eqn:E; [|done].
    intros _. by eapply match_fenced_has_fence.
  - rewrite re_search_cons. destruct (match_here RE_FENCED (c :: t)) eqn:E.
    + intros _. by eapply match_fenced_has_fence.
    + intros H. apply IH in H.
      eapply str_in_factor; [|exact H]. apply factor_suffix.
      change (drop 4 (c :: t)) with (drop 3 t).
      replace (drop 4 t) with (drop 1 (drop 3 t)) by by rewrite drop_drop.
      apply suffix_drop.
Qed.

(** Past an opening marker that no fence follows, nothing matches. *)
Lemma search_fenced_past_opening c s rest :
  after_opening (c :: s) = Some rest ->
  str_in FENCE rest = false ->
  re_search RE_FENCED s = None.
Proof.
  intros E F. destruct (re_search RE_FENCED s) as [g|] eqn:R; [|done].
  apply search_fenced_has_fence in R.
  apply after_opening_inv in E as [E | E]; injection E as -> ->.
  - simpl in R. congruence.
  - assert (str_in FENCE (drop 1 rest) = false); [|simpl in *; congruence].
    eapply str_in_factor_false; [|exact F]. apply factor_suffix, suffix_drop.
Qed.

Lemma search_fenced s :
  re_search RE_FENCED s
  = match find_opening s with
    | Some rest => before_fence rest
    | None => None
    end.
Proof.
  induction s as [|c s IH]; [reflexivity|].
  rewrite re_search_cons, find_opening_cons, match_fenced.
  destruct (after_opening (c :: s)) as [rest|] eqn:E; [|exact IH].
  destruct (before_fence rest) eqn:B; [done|].
  eapply search_fenced_past_opening; [exact E|]. by apply before_fence_none.
Qed.

(** * Further facts *)

(** ** White space at the ends *)

Lemma dropwhile_head p s c t : dropwhile p s = c :: t -> p c = false.
Proof.
  induction s as [|x s IH]; simpl; [done|].
  destruct (p x) eqn:E; [done|]. by intros [= <- _].
Qed.

Lemma dropwhile_fixed p s : dropwhile p (dropwhile p s) = dropwhile p s.
Proof.
  destruct (dropwhile p s) as [|c t] eqn:E; [done|].
  simpl. by rewrite (dropwhile_head _ _ _ _ E).
Qed.

Lemma dropwhile_nil p s x : dropwhile p s = [] -> In x s -> p x = true.
Proof.
  induction s as [|c s IH]; simpl; [done|].
  destruct (p c) eqn:E; [|done].
  intros H [-> | Hx]; [done | by apply IH].
Qed.

Lemma rstrip_fixed s : rstrip (rstrip s) = rstrip s.
Proof. unfold rstrip. by rewrite rev_involutive, dropwhile_fixed. Qed.

(** [rstrip] keeps a first character that is not white space. *)
Lemma rstrip_keeps_head p c l :
  p c = false ->
  exists l', rev (dropwhile p (rev (c :: l))) = c :: l'.
Proof.
  intros Hc.
  assert (Hp : prefix (rev (dropwhile p (rev (c :: l)))) (c :: l)).
  { destruct (dropwhile_suffix p (rev (c :: l))) as [k Hk].
    exists (rev k). apply (f_equal (@rev N)) in Hk.
    by rewrite rev_involutive, rev_app_distr in Hk. }
  destruct (rev (dropwhile p (rev (c :: l)))) as [|c' l'] eqn:E.
  - apply (f_equal (@rev N)) in E. rewrite rev_involutive in E. simpl in E.
    assert (p c = true); [|congruence].
    eapply dropwhile_nil; [exact E|]. apply in_or_app. right. by left.
  - apply prefix_cons_inv_1 in Hp as ->. by exists l'.
Qed.

Lemma lstrip_strip s : lstrip (strip s) = strip s.
Proof.
  unfold strip, lstrip.
  destruct (dropwhile isspace s) as [|c t] eqn:E; [reflexivity|].
  pose proof (dropwhile_head _ _ _ _ E) as Hc.
  destruct (rstrip_keeps_head isspace c t Hc) as [l' Hl].
  unfold rstrip. rewrite Hl. simpl. by rewrite Hc.
Qed.

Lemma strip_fixed s : strip (strip s) = strip s.
Proof.
  unfold strip at 1. rewrite lstrip_strip. unfold strip. apply rstrip_fixed.
Qed.

Lemma rstrip_strip s : rstrip (strip s) = strip s.
Proof. unfold strip. apply rstrip_fixed. Qed.

Lemma clean_completion_helper_lstrip raw p :
  lstrip (clean_completion raw p) = clean_completion raw p.
Proof. unfold clean_completion. apply lstrip_strip. Qed.

(** X1.  The string returned by [clean_completion] has no white space at
    either end: stripping it again, on the left, on the right or on both
    sides, changes nothing. *)
Theorem clean_completion_stripped raw p :
  strip (clean_completion raw p) = clean_completion raw p
  /\ lstrip (clean_completion raw p) = clean_completion raw p
  /\ rstrip (clean_completion raw p) = clean_completion raw p.
Proof.
  unfold clean_completion.
  split; [apply strip_fixed | split; [apply lstrip_strip | apply rstrip_strip]].
Qed.

Lemma leading_junk_space c : leading_junk c = false -> isspace c = false.
Proof. unfold leading_junk. rewrite !orb_false_iff. tauto. Qed.

Lemma first_piece_keeps_head sep c t :
  (c =? sep) = false ->
  exists l, first_piece sep (c :: t) = c :: l.
Proof.
  intros H. unfold first_piece. simpl. rewrite H.
  destruct (split sep t) as [|l ls]; eauto.
Qed.

(** X2.  The string returned by [clean_completion] does not begin with a
    double quote, a single quote, a comma, a backtick or white space: the
    leading run of such characters is gone, and the later steps do not bring
    one back. *)
Theorem clean_completion_no_leading_junk raw p :
  dropwhile leading_junk (clean_completion raw p) = clean_completion raw p.
Proof.
  unfold clean_completion.
  match goal with
  | |- context [first_piece NL (dropwhile leading_junk ?x)] =>
      destruct (dropwhile leading_junk x) as [|c t] eqn:E
  end; [reflexivity|].
  pose proof (dropwhile_head _ _ _ _ E) as Hc.
  pose proof (leading_junk_space _ Hc) as Hs.
  destruct (first_piece_keeps_head NL c t) as [l Hl].
  { destruct (N.eqb_spec c NL) as [->|]; [discriminate Hs | done]. }
  rewrite Hl. unfold strip, lstrip. simpl dropwhile. rewrite Hs.
  destruct (rstrip_keeps_head isspace c l Hs) as [l' Hl'].
  unfold rstrip. rewrite Hl'. simpl. by rewrite Hc.
Qed.

(** ** What the removals leave alone *)

Lemma remove_from_absent old s :
  str_in old s = false -> remove_from old O s = s.
Proof.
  induction s as [|c s IH]; [reflexivity|].
  change (str_in old (c :: s)) with (startswith (c :: s) old || str_in old s).
  rewrite orb_false_iff. intros [H1 H2]. simpl. rewrite H1. by rewrite IH.
Qed.

Lemma remove_all_absent old s : str_in old s = false -> remove_all old s = s.
Proof. destruct old; [done|]. apply remove_from_absent. Qed.

Lemma fence_python_absent s : str_in FENCE s = false -> str_in FENCE_PYTHON s = false.
Proof.
  intros H. destruct (str_in FENCE_PYTHON s) eqn:E; [|done].
  apply str_in_spec in E as (a & b & ->).
  assert (str_in FENCE (a ++ FENCE_PYTHON ++ b) = true); [|congruence].
  apply str_in_spec. exists a, (u "python" ++ b).
  unfold FENCE_PYTHON. by rewrite <- !app_assoc.
Qed.

(** X3.  The removals of [clean_completion] delete nothing but the markers:
    a text in which no control token and no fence occurs comes out of them
    unchanged. *)
Theorem scrub_unmarked raw :
  (forall token, In token control_tokens -> str_in token raw = false) ->
  str_in FENCE raw = false ->
  scrub raw = raw.
Proof.
  intros Ht Hf.
  assert (E1 : remove_all FIM_BEGIN raw = raw)
    by (apply remove_all_absent, Ht; simpl; tauto).
  assert (E2 : remove_all FIM_HOLE raw = raw)
    by (apply remove_all_absent, Ht; simpl; tauto).
  assert (E3 : remove_all FIM_END raw = raw)
    by (apply remove_all_absent, Ht; simpl; tauto).
  assert (E4 : remove_all END_OF_TEXT raw = raw)
    by (apply remove_all_absent, Ht; simpl; tauto).
  assert (E5 : remove_all FENCE_PYTHON raw = raw)
    by by apply remove_all_absent, fence_python_absent.
  assert (E6 : remove_all FENCE raw = raw) by by apply remove_all_absent.
  unfold scrub, control_tokens. cbn [fold_left].
  by rewrite E1, E2, E3, E4, E5, E6.
Qed.

Lemma scrub_unmarked_witness : scrub (u "return x + 1") = u "return x + 1".
Proof.
  apply scrub_unmarked.
  - intros token H. simpl in H.
    destruct H as [<- | [<- | [<- | [<- | []]]]]; vm_compute; reflexivity.
  - vm_compute; reflexivity.
Defined.

(** ** More on [_extract_code] *)

Lemma after_opening_none s :
  after_opening s = None
  <-> startswith s OPEN_PYTHON = false /\ startswith s OPEN_BARE = false.
Proof.
  unfold after_opening, after_prefix.
  destruct (startswith s OPEN_PYTHON), (startswith s OPEN_BARE);
    intuition congruence.
Qed.

Lemma find_opening_none s :
  find_opening s = None
  <-> str_in OPEN_PYTHON s = false /\ str_in OPEN_BARE s = false.
Proof.
  induction s as [|c s IH]; [done|].
  rewrite find_opening_cons.
  change (str_in OPEN_PYTHON (c :: s))
    with (startswith (c :: s) OPEN_PYTHON || str_in OPEN_PYTHON s).
  change (str_in OPEN_BARE (c :: s))
    with (startswith (c :: s) OPEN_BARE || str_in OPEN_BARE s).
  rewrite !orb_false_iff.
  destruct (after_opening (c :: s)) eqn:E.
  - split; [done|]. intros [[H1 _] [H2 _]].
    assert (after_opening (c :: s) = None) by by apply after_opening_none.
    congruence.
  - apply after_opening_none in E. tauto.
Qed.

Lemma find_opening_suffix s rest : find_opening s = Some rest -> suffix rest s.
Proof.
  induction s as [|c s IH]; [done|].
  rewrite find_opening_cons. destruct (after_opening (c :: s)) as [r|] eqn:E.
  - intros [= ->]. apply after_opening_inv in E as [-> | ->]; by eexists.
  - intros H. by apply suffix_cons_r, IH.
Qed.

Lemma before_fence_prefix s g :
  before_fence s = Some g -> prefix g s /\ str_in FENCE g = false.
Proof.
  revert g. induction s as [|c s IH]; intros g; [done|].
  cbn [before_fence]. destruct (startswith (c :: s) FENCE) eqn:E.
  - intros [= <-]. split; [apply prefix_nil | reflexivity].
  - destruct (before_fence s) as [g'|]; [|done]. intros [= <-].
    destruct (IH g' eq_refl) as [Hp Hf]. split; [by apply prefix_cons|].
    change (str_in FENCE (c :: g')) with (startswith (c :: g') FENCE || str_in FENCE g').
    rewrite Hf, orb_false_r.
    destruct (startswith (c :: g') FENCE) eqn:E'; [|done].
    apply startswith_spec in E'.
    assert (startswith (c :: s) FENCE = true); [|congruence].
    apply startswith_spec. etrans; [exact E'|]. by apply prefix_cons.
Qed.

(** What [_extract_code] returns, by cases on the first opening marker. *)
Lemma extract_code_eq content :
  _extract_code content
  = match find_opening content with
    | Some rest =>
        match before_fence rest with
        | Some interior => strip interior
        | None => strip rest
        end
    | None => strip content
    end.
Proof.
  unfold _extract_code. rewrite search_fenced, search_open_fence.
  destruct (find_opening content) as [rest|]; [|done].
  by destruct (before_fence rest).
Qed.

(** X4.  [_extract_code] invents nothing and leaves no white space at the
    ends: its result is a contiguous piece of [content], and stripping it
    again changes nothing. *)
Theorem extract_code_piece content :
  factor (_extract_code content) content
  /\ strip (_extract_code content) = _extract_code content.
Proof.
  rewrite extract_code_eq.
  destruct (find_opening content) as [rest|] eqn:E.
  - apply find_opening_suffix, factor_suffix in E.
    destruct (before_fence rest) as [g|] eqn:B.
    + apply before_fence_prefix in B as [B _]. split; [|apply strip_fixed].
      eapply factor_trans; [apply strip_factor|].
      eapply factor_trans; [by apply factor_prefix | done].
    + split; [|apply strip_fixed]. by eapply factor_trans; [apply strip_factor|].
  - split; [apply strip_factor | apply strip_fixed].
Qed.

(** X5.  When [content] holds an opening fence marker (three backticks,
    then [python] or nothing, then the end of the line), the code returned
    by [_extract_code] contains no run of three backticks, whether the
    block is closed or cut short. *)
Theorem extract_code_fence_free content :
  str_in OPEN_PYTHON content = true \/ str_in OPEN_BARE content = true ->
  str_in FENCE (_extract_code content) = false.
Proof.
  intros H. rewrite extract_code_eq.
  destruct (find_opening content) as [rest|] eqn:E.
  - destruct (before_fence rest) as [g|] eqn:B.
    + apply before_fence_prefix in B as [_ B].
      eapply str_in_factor_false; [apply strip_factor | done].
    + apply before_fence_none in B.
      eapply str_in_factor_false; [apply strip_factor | done].
  - apply find_opening_none in E as [E1 E2]. destruct H; congruence.
Qed.

Lemma extract_code_fence_free_witness :
  str_in FENCE
    (_extract_code (u "Sure:" ++ [NL] ++ FENCE ++ [NL] ++ u "y = 2" ++ [NL]
                      ++ FENCE ++ u " and " ++ FENCE)) = false.
Proof.
  apply extract_code_fence_free. right. vm_compute. reflexivity.
Defined.

(** X6.  Without an opening fence marker [_extract_code] returns the whole
    content, stripped: a fence with another language tag, or with text on
    the line of the backticks, is not recognised and stays in the
    result. *)
Theorem extract_code_no_opening content :
  str_in OPEN_PYTHON content = false ->
  str_in OPEN_BARE content = false ->
  _extract_code content = strip content.
Proof.
  intros H1 H2. rewrite extract_code_eq.
  assert (E : find_opening content = None) by by apply find_opening_none.
  by rewrite E.
Qed.

Lemma extract_code_no_opening_witness :
  _extract_code (FENCE ++ u "js" ++ [NL] ++ u "let x = 1" ++ [NL] ++ FENCE)
  = FENCE ++ u "js" ++ [NL] ++ u "let x = 1" ++ [NL] ++ FENCE.
Proof.
  rewrite extract_code_no_opening; vm_compute; reflexivity.
Defined.

(** ** More on [_clean_code_lines] *)

Section CleanCodeLinesMore.

Variable isupper : N -> bool.

Lemma clean_line_some line l :
  clean_line isupper line = Some l ->
  l = blank_as_empty line
  /\ (strip line = []
      \/ (l = line
          /\ startswith (strip line) FENCE = false
          /\ startswith (strip line) (u "import ") = false
          /\ startswith (strip line) (u "from ") = false
          /\ str_in (u "read_csv") (strip line) = false
          /\ is_prose isupper (strip line) && negb (startswith (strip line) (u "#"))
             = false)).
Proof.
  unfold clean_line, blank_as_empty.
  destruct (strip line) as [|c s] eqn:E; [intros [= <-]; tauto|].
  destruct (startswith (c :: s) FENCE) eqn:E1; [done|].
  destruct (startswith (c :: s) (u "import ")) eqn:E2; [done|].
  destruct (startswith (c :: s) (u "from ")) eqn:E3; [done|].
  cbn [orb].
  destruct (str_in (u "read_csv") (c :: s)) eqn:E4; [done|].
  destruct (is_prose isupper (c :: s) && negb (startswith (c :: s) (u "#"))) eqn:E5;
    [done|].
  intros [= <-]. split; [done|]. right. done.
Qed.

Lemma omap_clean_line_sublist lines :
  omap (clean_line isupper) lines `sublist_of` (blank_as_empty <$> lines).
Proof.
  induction lines as [|x lines IH]; [done|].
  cbn [omap list_omap fmap list_fmap].
  destruct (clean_line isupper x) as [l|] eqn:E.
  - apply clean_line_some in E as [-> _]. by apply sublist_skip.
  - by apply sublist_cons.
Qed.

(** X7.  A line returned by [_clean_code_lines] is the empty string, or it
    is a line of [generated] that is not blank and whose trimmed text does
    not begin with a fence, with [import ] or with [from ], does not
    contain [read_csv], and is a comment or is not prose. *)
Theorem clean_code_lines_kept generated all_lines l :
  In l (_clean_code_lines isupper generated all_lines) ->
  l = []
  \/ (In l (split NL generated)
      /\ strip l <> []
      /\ startswith (strip l) FENCE = false
      /\ startswith (strip l) (u "import ") = false
      /\ startswith (strip l) (u "from ") = false
      /\ str_in (u "read_csv") (strip l) = false
      /\ is_prose isupper (strip l) && negb (startswith (strip l) (u "#")) = false).
Proof.
  intros H. unfold _clean_code_lines, clean_code_of_lines in H.
  apply list_elem_of_In, list_elem_of_filter in H as [_ H].
  apply list_elem_of_omap in H as (x & Hx & H).
  apply clean_line_some in H as [Hl [Hb | (-> & H)]].
  - left. unfold blank_as_empty in Hl. by rewrite Hb in Hl.
  - destruct (strip x) eqn:E.
    + left. unfold blank_as_empty in Hl. by rewrite E in Hl.
    + right. split; [by apply list_elem_of_In|]. split; [done|]. exact H.
Qed.

(** X8.  [_clean_code_lines] keeps the order of the lines and repeats
    none: its result is a subsequence of the lines of [generated], each
    blank line counted as the empty string; so it is never longer than the
    number of lines. *)
Theorem clean_code_lines_in_order generated all_lines :
  _clean_code_lines isupper generated all_lines
    `sublist_of` (blank_as_empty <$> split NL generated)
  /\ (length (_clean_code_lines isupper generated all_lines)
      <= length (split NL generated))%nat.
Proof.
  assert (H : _clean_code_lines isupper generated all_lines
                `sublist_of` (blank_as_empty <$> split NL generated)).
  { unfold _clean_code_lines, clean_code_of_lines.
    etrans; [apply sublist_filter|]. apply omap_clean_line_sublist. }
  split; [done|]. apply sublist_length in H. by rewrite length_fmap in H.
Qed.

(** X9.  A comment line of [generated] (its trimmed text begins with [#])
    that does not contain [read_csv] and whose trimmed text is not the
    trimmed text of a line of [all_lines] is returned, whatever else it
    holds: the test for prose does not apply to it. *)
Theorem clean_code_lines_keeps_comment generated all_lines line :
  In line (split NL generated) ->
  startswith (strip line) (u "#") = true ->
  str_in (u "read_csv") (strip line) = false ->
  (forall e, In e all_lines -> strip e <> strip line) ->
  In line (_clean_code_lines isupper generated all_lines).
Proof.
  intros Hin Hc Hr He. unfold _clean_code_lines, clean_code_of_lines.
  apply list_elem_of_In, list_elem_of_filter. split.
  - rewrite existing_set_spec. intros [_ (e & H1 & H2)]. by apply (He e).
  - apply list_elem_of_omap. exists line. split; [by apply list_elem_of_In|].
    unfold clean_line. destruct (strip line) as [|c s] eqn:E; [done|].
    apply startswith_spec in Hc as Hc'. destruct Hc' as [k Hk].
    injection Hk as -> ->.
    rewrite Hr, Hc. cbn. by rewrite andb_false_r.
Qed.

End CleanCodeLinesMore.

Lemma clean_code_lines_kept_witness :
  u "x = df.sum()" = []
  \/ (In (u "x = df.sum()")
         (split NL (u "import pandas as pd" ++ [NL] ++ u "x = df.sum()"))
      /\ strip (u "x = df.sum()") <> []
      /\ startswith (strip (u "x = df.sum()")) FENCE = false
      /\ startswith (strip (u "x = df.sum()")) (u "import ") = false
      /\ startswith (strip (u "x = df.sum()")) (u "from ") = false
      /\ str_in (u "read_csv") (strip (u "x = df.sum()")) = false
      /\ is_prose isupper_ascii (strip (u "x = df.sum()"))
         && negb (startswith (strip (u "x = df.sum()")) (u "#")) = false).
Proof.
  apply (clean_code_lines_kept isupper_ascii
           (u "import pandas as pd" ++ [NL] ++ u "x = df.sum()") [u "x = 1"]).
  vm_compute. tauto.
Defined.

Lemma clean_code_lines_keeps_comment_witness :
  In (u "# Total of the column!")
     (_clean_code_lines isupper_ascii
        (u "# Total of the column!" ++ [NL] ++ u "t = df.a.sum()") [u "t = 0"]).
Proof.
  apply clean_code_lines_keeps_comment.
  - vm_compute. tauto.
  - vm_compute. reflexivity.
  - vm_compute. reflexivity.
  - intros e [<- | []]. vm_compute. discriminate.
Defined.

(** ** More on the turn log *)

(** X10.  For a log that [add_turn] has built from the empty log, the
    slice taken by [get_history_messages] cuts nothing: the messages are
    the system message followed by the whole log, at most 21 in all. *)
Theorem history_messages_whole_log (ts : list turn) (system_prompt : str) :
  get_history_messages (add_turns [] ts) system_prompt
  = Turn (u "system") system_prompt :: add_turns [] ts
  /\ (length (get_history_messages (add_turns [] ts) system_prompt) <= 21)%nat.
Proof.
  assert (H : (length (add_turns [] ts) <= MAX_TURNS * 2)%nat).
  { rewrite add_turns_eq, last_n_length by (simpl; lia). lia. }
  unfold get_history_messages. rewrite last_n_all by done.
  split; [done|]. simpl in *. lia.
Qed.

(** X11.  [add_turn] always leaves the new turn at the end of the log.  It
    lengthens a log of fewer than 20 entries by one and keeps the length of
    any other log: a log that is already longer than 20 entries stays as
    long as it is, it is not cut back to the bound. *)
Theorem add_turn_last_and_length (h : list turn) (r c : str) :
  last (add_turn h r c) = Some (Turn r c)
  /\ length (add_turn h r c)
     = (if (length h <? 20)%nat then S (length h) else length h).
Proof.
  unfold add_turn. rewrite length_app. simpl length.
  change (MAX_TURNS * 2)%nat with 20%nat.
  destruct (Nat.ltb_spec 20 (length h + 1)) as [H|H].
  - destruct (Nat.ltb_spec (length h) 20) as [H'|H']; [lia|].
    destruct h as [|t h]; [simpl in *; lia|]. split.
    + change (drop 1 ((t :: h) ++ [Turn r c])) with (h ++ [Turn r c]).
      apply last_snoc.
    + rewrite length_drop, length_app. simpl. lia.
  - destruct (Nat.ltb_spec (length h) 20) as [H'|H']; [|lia]. split.
    + apply last_snoc.
    + rewrite length_app. simpl. lia.
Qed.

Lemma assistant_turns_nil h :
  assistant_turns h = [] <-> forall t, In t h -> role t <> u "assistant".
Proof.
  unfold assistant_turns. split.
  - intros H t Ht Hr. apply fmap_nil_inv in H.
    assert (Hin : t ∈ filter (fun t => role t = u "assistant") h).
    { apply list_elem_of_filter. split; [done | by apply list_elem_of_In]. }
    rewrite H in Hin. by apply not_elem_of_nil in Hin.
  - intros H. destruct (filter _ h) as [|t l] eqn:E; [done|].
    assert (Hin : t ∈ filter (fun t => role t = u "assistant") h)
      by (rewrite E; left).
    apply list_elem_of_filter in Hin as [Hr Hin].
    apply list_elem_of_In in Hin. by apply H in Hin.
Qed.

(** X12.  The text about earlier snippets that [generate_from_comment]
    adds to its request is empty exactly when the log holds no turn of the
    assistant; otherwise it is the heading followed by at most 600
    characters. *)
Theorem prior_snippets_bounded (h : list turn) :
  (prior_snippets h = [] <-> forall t, In t h -> role t <> u "assistant")
  /\ (length (prior_snippets h) <= length PRIOR_HEADING + 600)%nat
  /\ (prior_snippets h = [] \/ prefix PRIOR_HEADING (prior_snippets h)).
Proof.
  unfold prior_snippets. rewrite <- assistant_turns_nil.
  destruct (assistant_turns h) as [|a l] eqn:E.
  - split; [done|]. split; [simpl; lia | by left].
  - split; [split; done|]. split.
    + rewrite length_app, last_n_length. lia.
    + right. by eexists.
Qed.

(** ** More on the store and the cache *)

Section StoreMore.

Variable json_dump : json -> str.
Variable json_load : str -> option json.

Lemma save_context_file o ctx st :
  context_file (snd (_save_context json_dump o ctx st))
  = if makedirs_ok o
    then match write o with
         | WriteOk => Contents (json_dump ctx)
         | WriteFails remains => remains
         end
    else context_file st.
Proof.
  unfold _save_context. destruct (makedirs_ok o); [|done].
  by destruct (write o).
Qed.

(** What [set_entry] does when the table is ready. *)
Lemma set_entry_ready table key entry st :
  table_ready (_disk_context st) table = true ->
  exists m t,
    _disk_context st = JObj m
    /\ default (JObj ∅) (m !! table) = JObj t
    /\ set_entry table key entry st
       = (inr tt, State (_turn_history st) (_snippet_cache st)
                        (JObj (<[table := JObj (<[key := entry]> t)]> m))
                        (context_file st)).
Proof.
  unfold table_ready, set_entry, bind, get_state. simpl.
  destruct (_disk_context st) as [| | | | | |m] eqn:E; try done.
  destruct (m !! table) as [[| | | | | |t]|] eqn:Et; try done; intros _.
  - exists m, t. rewrite Et. repeat split.
  - exists m, ∅. rewrite Et. repeat split.
Qed.

(** What [set_entry] does when the document is not a dictionary. *)
Lemma set_entry_not_dict table key entry st :
  (forall m, _disk_context st <> JObj m) ->
  set_entry table key entry st = (inl AttributeError, st).
Proof.
  intros H. unfold set_entry, bind, get_state. simpl.
  destruct (_disk_context st) as [| | | | | |m] eqn:E; try done.
  by destruct (H m).
Qed.

(** The state [cache_snippet] reaches when the table is ready. *)
Lemma cache_snippet_ready o now k v st :
  table_ready (_disk_context st) (u "snippets") = true ->
  exists m t,
    _disk_context st = JObj m
    /\ default (JObj ∅) (m !! u "snippets") = JObj t
    /\ cache_snippet json_dump o now k v st
       = _save_context json_dump o
           (JObj (<[u "snippets" := JObj (<[k := snippet_entry v now]> t)]> m))
           (State (_turn_history st) (<[k := v]> (_snippet_cache st))
                  (JObj (<[u "snippets" := JObj (<[k := snippet_entry v now]> t)]> m))
                  (context_file st)).
Proof.
  intros R. rewrite cache_snippet_run.
  destruct (set_entry_ready (u "snippets") k (snippet_entry v now)
              (State (_turn_history st) (<[k := v]> (_snippet_cache st))
                     (_disk_context st) (context_file st)) R)
    as (m & t & H1 & H2 & H3).
  exists m, t. split; [done|]. split; [done|].
  unfold snippet_entry in *. by rewrite H3.
Qed.

Lemma cache_snippet_not_ready o now k v st :
  table_ready (_disk_context st) (u "snippets") = false ->
  exists e,
    cache_snippet json_dump o now k v st
    = (inl e, State (_turn_history st) (<[k := v]> (_snippet_cache st))
                    (_disk_context st) (context_file st)).
Proof.
  intros R. rewrite cache_snippet_run.
  unfold set_entry, bind, get_state. cbn [fst snd _disk_context].
  unfold table_ready in R.
  destruct (_disk_context st) as [| | | | | |m]; try by eexists.
  destruct (m !! u "snippets") as [[| | | | | |t]|]; try done; by eexists.
Qed.

Lemma snippet_entry_code v now :
  (if truthy (snippet_entry v now)
   then get_or_none (snippet_entry v now) (u "code")
   else inr JNull) = inr (JStr v).
Proof.
  unfold snippet_entry. cbn [truthy get_or_none].
  rewrite lookup_insert_eq. cbn [from_option id].
  destruct (size _) eqn:Es; [|done].
  apply map_size_empty_iff in Es.
  apply (f_equal (lookup (u "code"))) in Es.
  by rewrite lookup_insert_eq, lookup_empty in Es.
Qed.

(** X13.  Caching a snippet under one key leaves the answer of
    [get_cached_snippet] for every other key as it was, whatever the
    document holds and whatever happens to the write. *)
Theorem cache_snippet_other_key (o : io) (now k k' v : str) (st : state) :
  k <> k' ->
  get_cached_snippet k (snd (cache_snippet json_dump o now k' v st))
  = get_cached_snippet k st.
Proof.
  intros Hk. unfold get_cached_snippet.
  rewrite cache_snippet_memory, lookup_insert_ne by done.
  destruct (_snippet_cache st !! k); [done|].
  destruct (table_ready (_disk_context st) (u "snippets")) eqn:R.
  - destruct (cache_snippet_ready o now k' v st R) as (m & t & H1 & H2 & H3).
    rewrite H3.
    match goal with
    | |- context [_save_context json_dump o ?c ?s] =>
        pose proof (save_context_frame json_dump o c s) as (_ & _ & H4)
    end.
    cbn zeta in H4. rewrite H4, H1. cbn [_disk_context get_or_empty].
    rewrite lookup_insert_eq, H2. cbn [from_option id get_or_none].
    by rewrite lookup_insert_ne.
  - destruct (cache_snippet_not_ready o now k' v st R) as (e & ->). done.
Qed.

(** X14.  When the document is a dictionary whose table of snippets is
    missing or is a dictionary, [cache_snippet] writes the code in the
    document as well: with the dictionary in memory emptied,
    [get_cached_snippet] still returns the code, read from the document.
    This holds whatever happens to the write. *)
Theorem cache_snippet_in_document (o : io) (now k v : str) (st : state) :
  table_ready (_disk_context st) (u "snippets") = true ->
  let st' := snd (cache_snippet json_dump o now k v st) in
  get_cached_snippet k
    (State (_turn_history st') ∅ (_disk_context st') (context_file st'))
  = inr (JStr v).
Proof.
  intros R st'. subst st'.
  destruct (cache_snippet_ready o now k v st R) as (m & t & H1 & H2 & H3).
  rewrite H3.
  match goal with
  | |- context [_save_context json_dump o ?c ?s] =>
      pose proof (save_context_frame json_dump o c s) as (_ & _ & H4)
  end.
  cbn zeta in H4. unfold get_cached_snippet. cbn [_snippet_cache].
  rewrite lookup_empty. cbn [_disk_context]. rewrite H4.
  cbn [_disk_context get_or_empty]. rewrite lookup_insert_eq.
  cbn [from_option id get_or_none]. rewrite lookup_insert_eq.
  cbn [from_option id]. apply snippet_entry_code.
Qed.

(** X15.  With a healthy store (the directory can be made, the write
    succeeds, the library reads back the document it wrote) and a document
    that is a dictionary with a usable table of snippets, a cached snippet
    outlives the process: after [cache_snippet], a new process loads the
    same document and [get_cached_snippet] returns the code from it. *)
Theorem cache_snippet_survives_restart (o : io) (now k v : str) (st : state) :
  table_ready (_disk_context st) (u "snippets") = true ->
  makedirs_ok o = true ->
  write o = WriteOk ->
  let st' := snd (cache_snippet json_dump o now k v st) in
  json_load (json_dump (_disk_context st')) = Some (_disk_context st') ->
  fst (cache_snippet json_dump o now k v st) = inr tt
  /\ _disk_context (restart json_load st') = _disk_context st'
  /\ get_cached_snippet k (restart json_load st') = inr (JStr v).
Proof.
  intros R Hm Hw st' Hc.
  pose proof (cache_snippet_in_document o now k v st R) as Hdoc.
  cbn zeta in Hdoc. fold st' in Hdoc.
  assert (Hrun : fst (cache_snippet json_dump o now k v st) = inr tt
                 /\ context_file st' = Contents (json_dump (_disk_context st'))).
  { subst st'.
    destruct (cache_snippet_ready o now k v st R) as (m & t & H1 & H2 & H3).
    rewrite H3, save_context_ok by done. done. }
  destruct Hrun as [Hr Hf]. split; [done|].
  assert (Hd : _disk_context (restart json_load st') = _disk_context st').
  { unfold restart. cbn [_disk_context]. rewrite Hf. simpl. by rewrite Hc. }
  split; [done|].
  unfold get_cached_snippet in *. cbn [_snippet_cache] in *.
  unfold restart at 1. cbn [_snippet_cache].
  rewrite lookup_empty in *. by rewrite Hd.
Qed.

End StoreMore.

Lemma cache_snippet_other_key_witness :
  get_cached_snippet (u "sum")
    (snd (cache_snippet dump_braces (IO true (WriteFails Absent)) (u "now")
            (u "mean") (u "m = df.mean()")
            (State [] (<[u "sum" := u "s = df.sum()"]> ∅) empty_document Absent)))
  = inr (JStr (u "s = df.sum()")).
Proof.
  rewrite (cache_snippet_other_key dump_braces) by discriminate.
  vm_compute. reflexivity.
Defined.

Lemma cache_snippet_in_document_witness :
  let st' := snd (cache_snippet dump_braces (IO false WriteOk) (u "now")
                    (u "sum") (u "s = df.sum()")
                    (State [] ∅ empty_document Absent)) in
  get_cached_snippet (u "sum")
    (State (_turn_history st') ∅ (_disk_context st') (context_file st'))
  = inr (JStr (u "s = df.sum()")).
Proof.
  apply (cache_snippet_in_document dump_braces). vm_compute. reflexivity.
Defined.

(** The snippet is written to the file by [json.dump] and read from it by
    [json.load] in the new process. *)
Lemma cache_snippet_survives_restart_witness :
  let st' := snd (cache_snippet (json_dumps no_float_text) (IO true WriteOk)
                    (u "now") (u "sum") (u "s = df.sum()")
                    (State [] ∅ empty_document Absent)) in
  context_file st'
  = Contents (json_dumps no_float_text
                (JObj (<[u "snippets" :=
                           JObj (<[u "sum" := snippet_entry (u "s = df.sum()") (u "now")]> ∅)]>
                       (<[u "file_summaries" := JObj ∅]> ∅))))
  /\ _snippet_cache (restart (json_loads no_float_of_text) st') = ∅
  /\ get_cached_snippet (u "sum") (restart (json_loads no_float_of_text) st')
     = inr (JStr (u "s = df.sum()")).
Proof.
  cbn zeta. split; [vm_compute; reflexivity|]. split; [reflexivity|].
  apply (cache_snippet_survives_restart (json_dumps no_float_text)
           (json_loads no_float_of_text));
    vm_compute; reflexivity.
Defined.

(** ** File summaries, a document of the wrong shape, clearing *)

Section StoreEdges.

Variable json_dump : json -> str.
Variable json_load : str -> option json.

Lemma store_file_summary_ready o now filepath summary st :
  table_ready (_disk_context st) (u "file_summaries") = true ->
  exists m t,
    _disk_context st = JObj m
    /\ default (JObj ∅) (m !! u "file_summaries") = JObj t
    /\ store_file_summary json_dump o now filepath summary st
       = _save_context json_dump o
           (JObj (<[u "file_summaries"
                    := JObj (<[filepath := summary_entry summary now]> t)]> m))
           (State (_turn_history st) (_snippet_cache st)
                  (JObj (<[u "file_summaries"
                           := JObj (<[filepath := summary_entry summary now]> t)]> m))
                  (context_file st)).
Proof.
  intros R. rewrite store_file_summary_run.
  destruct (set_entry_ready (u "file_summaries") filepath
              (summary_entry summary now) st R) as (m & t & H1 & H2 & H3).
  exists m, t. split; [done|]. split; [done|].
  unfold summary_entry in *. by rewrite H3.
Qed.

Lemma store_file_summary_not_ready o now filepath summary st :
  table_ready (_disk_context st) (u "file_summaries") = false ->
  exists e, store_file_summary json_dump o now filepath summary st = (inl e, st).
Proof.
  intros R. rewrite store_file_summary_run.
  unfold set_entry, bind, get_state. cbn [fst snd].
  unfold table_ready in R.
  destruct (_disk_context st) as [| | | | | |m]; try by eexists.
  destruct (m !! u "file_summaries") as [[| | | | | |t]|]; try done; by eexists.
Qed.

(** X16.  When the document is a dictionary whose table of file summaries
    is missing or is a dictionary, [get_file_summary] after
    [store_file_summary] returns the summary just stored, whatever happens
    to the write; and storing the summary of one file never changes what
    [get_file_summary] answers for another. *)
Theorem file_summary_round_trip (o : io) (now filepath summary : str) (st : state) :
  table_ready (_disk_context st) (u "file_summaries") = true ->
  get_file_summary filepath
    (snd (store_file_summary json_dump o now filepath summary st))
  = inr (JStr summary)
  /\ (forall other, other <> filepath ->
        get_file_summary other
          (snd (store_file_summary json_dump o now filepath summary st))
        = get_file_summary other st).
Proof.
  intros R.
  destruct (store_file_summary_ready o now filepath summary st R)
    as (m & t & H1 & H2 & H3).
  rewrite H3.
  match goal with
  | |- context [_save_context json_dump o ?c ?s] =>
      pose proof (save_context_frame json_dump o c s) as (_ & _ & H4)
  end.
  cbn zeta in H4. unfold get_file_summary. rewrite H4, H1.
  cbn [_disk_context get_or_empty]. rewrite lookup_insert_eq, H2.
  cbn [from_option id get_or_empty]. split.
  - rewrite lookup_insert_eq. cbn [from_option id].
    unfold summary_entry. cbn [get_or_none]. by rewrite lookup_insert_eq.
  - intros other Ho. by rewrite lookup_insert_ne.
Qed.

(** X17.  [_load_context] takes any value the file parses to.  When that
    value is not a dictionary (a list, a number, a string), every
    [cache_snippet] of the process raises [AttributeError] and writes
    neither the document nor the file; only the dictionary in memory is
    updated.  [store_file_summary] raises and changes nothing. *)
Theorem writes_on_wrong_document (o : io) (now k v text : str) (d : json)
    (st : state) :
  context_file st = Contents text ->
  json_load text = Some d ->
  (forall m, d <> JObj m) ->
  let st0 := restart json_load st in
  cache_snippet json_dump o now k v st0
  = (inl AttributeError,
     State [] (<[k := v]> ∅) d (Contents text))
  /\ store_file_summary json_dump o now k v st0 = (inl AttributeError, st0).
Proof.
  intros Hf Hl Hd st0.
  assert (E : st0 = State [] ∅ d (Contents text)).
  { unfold st0, restart. rewrite Hf. simpl. by rewrite Hl. }
  rewrite E. split.
  - rewrite cache_snippet_run. by rewrite set_entry_not_dict.
  - rewrite store_file_summary_run. by rewrite set_entry_not_dict.
Qed.

(** X18.  [clear_all_context], on a document that is a dictionary and a
    file that is absent or can be removed, empties the turn log, both
    tiers of the cache and the summaries and leaves no file; after it
    [get_cached_snippet] and [get_file_summary] answer [None] for every
    key, and running it again changes nothing. *)
Theorem clear_all_context_clears (remove_ok : bool) (m : gmap str json)
    (st : state) :
  _disk_context st = JObj m ->
  remove_ok = true \/ context_file st = Absent ->
  clear_all_context remove_ok st = (inr tt, State [] ∅ (JObj ∅) Absent)
  /\ (forall k, get_cached_snippet k (State [] ∅ (JObj ∅) Absent) = inr JNull)
  /\ (forall f, get_file_summary f (State [] ∅ (JObj ∅) Absent) = inr JNull)
  /\ (forall b, clear_all_context b (State [] ∅ (JObj ∅) Absent)
                = (inr tt, State [] ∅ (JObj ∅) Absent)).
Proof.
  intros Hd Hr. split; [|repeat split].
  destruct st as [h c d f]. cbn [_disk_context context_file] in Hd, Hr. subst d.
  destruct Hr as [-> | ->]; [|reflexivity].
  by destruct f.
Qed.


End StoreEdges.

Lemma file_summary_round_trip_witness :
  get_file_summary (u "a.py")
    (snd (store_file_summary dump_braces (IO true (WriteFails Unreadable)) (u "now")
            (u "a.py") (u "loads the data")
            (State [] ∅ (JObj ∅) Absent)))
  = inr (JStr (u "loads the data")).
Proof.
  refine (proj1 (file_summary_round_trip dump_braces _ _ _ _ _ _)).
  vm_compute. reflexivity.
Defined.

Lemma writes_on_wrong_document_witness :
  store_file_summary dump_braces (IO true WriteOk) (u "now") (u "k") (u "v")
    (restart (load_as (JArr [])) (State [] ∅ empty_document (Contents (u "[]"))))
  = (inl AttributeError,
     restart (load_as (JArr [])) (State [] ∅ empty_document (Contents (u "[]")))).
Proof.
  refine (proj2 (writes_on_wrong_document dump_braces (load_as (JArr []))
            _ _ _ _ (u "[]") (JArr []) _ _ _ _)).
  - reflexivity.
  - reflexivity.
  - discriminate.
Defined.

Lemma clear_all_context_clears_witness :
  clear_all_context true
    (State [Turn (u "user") (u "hi")] (<[u "k" := u "v"]> ∅) empty_document
           (Contents (u "{}")))
  = (inr tt, State [] ∅ (JObj ∅) Absent).
Proof.
  refine (proj1 (clear_all_context_clears true _ _ _ _)).
  - reflexivity.
  - by left.
Defined.


(** ** The text around the cursor *)

Lemma join_cons sep x y l : join sep (x :: y :: l) = x ++ sep ++ join sep (y :: l).
Proof. reflexivity. Qed.

Lemma join_cons_ne sep z l : l <> [] -> join sep (z :: l) = z ++ sep ++ join sep l.
Proof. destruct l; [done|]. intros _. apply join_cons. Qed.

Lemma join_snoc_cons sep a x y b :
  join sep (a ++ [x]) ++ join sep (y :: b) = join sep (a ++ (x ++ y) :: b).
Proof.
  induction a as [|z a IH].
  - simpl app. destruct b as [|w b]; [done|].
    rewrite !join_cons. cbn [join]. by rewrite <- !app_assoc.
  - rewrite <- !app_comm_cons.
    rewrite (join_cons_ne sep z (a ++ [x])) by (by destruct a).
    rewrite (join_cons_ne sep z (a ++ (x ++ y) :: b)) by (by destruct a).
    rewrite <- IH. by rewrite <- !app_assoc.
Qed.

Lemma join_snoc_suffix sep a x : suffix x (join sep (a ++ [x])).
Proof.
  induction a as [|z a IH]; [done|].
  rewrite <- app_comm_cons.
  rewrite (join_cons_ne sep z (a ++ [x])) by (by destruct a).
  by apply suffix_app_r, suffix_app_r.
Qed.

(** X20.  For a cursor on a line of the buffer (row between 1 and the
    number of lines), [get_prefix] and [get_suffix] cut the text of the
    buffer in two: put together they are the lines of the buffer joined by
    newlines, and [get_prefix] ends with what
    [get_current_line_before_cursor] returns. *)
Theorem prefix_suffix_cover (buffer : list str) (row col : nat) :
  (1 <= row <= length buffer)%nat ->
  exists p s cur,
    get_prefix buffer row col = Some p
    /\ get_suffix buffer row col = Some s
    /\ get_current_line_before_cursor buffer row col = Some cur
    /\ p ++ s = join [NL] buffer
    /\ suffix cur p.
Proof.
  intros [H1 H2]. destruct row as [|r]; [lia|].
  destruct (lookup_lt_is_Some_2 buffer r) as [l Hl]; [lia|].
  assert (Hb : buffer = take r buffer ++ l :: drop (S r) buffer).
  { by rewrite <- (take_drop_middle buffer r l) at 1. }
  assert (Ht : take (S r) buffer = take r buffer ++ [l])
    by by apply take_S_r.
  exists (join [NL] (take r buffer ++ [take col l])),
         (join [NL] (drop col l :: drop (S r) buffer)), (take col l).
  split; [|split; [|split; [|split]]].
  - unfold get_prefix. rewrite Ht, last_snoc.
    f_equal. f_equal. rewrite length_app. simpl length.
    replace (Nat.pred (length (take r buffer) + 1)) with (length (take r buffer) + 0)%nat
      by lia.
    by rewrite insert_app_r.
  - unfold get_suffix. by rewrite Hl.
  - unfold get_current_line_before_cursor. by rewrite Hl.
  - rewrite join_snoc_cons, take_drop. by rewrite <- Hb.
  - apply join_snoc_suffix.
Qed.

Lemma prefix_suffix_cover_witness :
  exists p s cur,
    get_prefix [u "x = 1"; u "y = x + 2"; u "z"] 2 4 = Some p
    /\ get_suffix [u "x = 1"; u "y = x + 2"; u "z"] 2 4 = Some s
    /\ get_current_line_before_cursor [u "x = 1"; u "y = x + 2"; u "z"] 2 4 = Some cur
    /\ p ++ s = join [NL] [u "x = 1"; u "y = x + 2"; u "z"]
    /\ suffix cur p.
Proof.
  apply prefix_suffix_cover. simpl. lia.
Defined.

(** X21.  [insert_completion] does nothing with an empty completion.  With
    a completion that is not empty and a column inside the line, it puts
    the completion, or one space and the completion, between the text
    before the cursor and the text after it, both of which stay as they
    were, and moves the cursor to the end of what it inserted. *)
Theorem insert_text_splices (line : str) (col : nat) (completion : str) :
  (col <= length line)%nat ->
  completion <> [] ->
  exists inserted new_line new_col,
    insert_text line col completion = Some (new_line, new_col)
    /\ (inserted = completion \/ inserted = u " " ++ completion)
    /\ new_line = take col line ++ inserted ++ drop col line
    /\ take new_col new_line = take col line ++ inserted
    /\ drop new_col new_line = drop col line.
Proof.
  intros Hc Hn. destruct completion as [|c0 completion]; [done|].
  unfold insert_text.
  set (needs_space := (_ && _ && _)).
  exists (if needs_space then u " " ++ c0 :: completion else c0 :: completion).
  eexists _, _. split; [reflexivity|].
  assert (Hl : length (take col line) = col) by (rewrite length_take; lia).
  split; [destruct needs_space; tauto|]. split; [done|].
  rewrite app_assoc. split.
  - rewrite take_app_length'; [done|]. rewrite length_app. lia.
  - rewrite drop_app_length'; [done|]. rewrite length_app. lia.
Qed.

Lemma insert_text_splices_witness :
  exists inserted new_line new_col,
    insert_text (u "total =") 7 (u "df.sum()") = Some (new_line, new_col)
    /\ (inserted = u "df.sum()" \/ inserted = u " " ++ u "df.sum()")
    /\ new_line = take 7 (u "total =") ++ inserted ++ drop 7 (u "total =")
    /\ take new_col new_line = take 7 (u "total =") ++ inserted
    /\ drop new_col new_line = drop 7 (u "total =").
Proof.
  apply insert_text_splices; [simpl; lia | discriminate].
Defined.

Lemma lstrip_no_space s : lstrip s = s -> startswith s (u " ") = false.
Proof.
  intros H. destruct (startswith s (u " ")) eqn:E; [|done].
  apply startswith_spec in E as [k ->]. unfold lstrip in H.
  change (dropwhile isspace (u " " ++ k)) with (dropwhile isspace k) in H.
  pose proof (dropwhile_suffix isspace k) as Hs. rewrite H in Hs.
  apply suffix_length in Hs. simpl in Hs. lia.
Qed.

(** X22.  The completion that [insert_completion] receives from
    [clean_completion] never begins with a space, so the third test of
    [needs_space] never decides: a space is put before the completion
    exactly when there is text before the cursor and it does not end with a
    space. *)
Theorem insert_cleaned_completion (line : str) (col : nat) (raw p : str) :
  clean_completion raw p <> [] ->
  startswith (clean_completion raw p) (u " ") = false
  /\ insert_text line col (clean_completion raw p)
     = Some (take col line
             ++ (if (0 <? length (take col line))%nat
                    && negb (endswith (take col line) (u " "))
                 then u " " ++ clean_completion raw p
                 else clean_completion raw p)
             ++ drop col line,
             (col + length
                (if (0 <? length (take col line))%nat
                    && negb (endswith (take col line) (u " "))
                 then u " " ++ clean_completion raw p
                 else clean_completion raw p))%nat).
Proof.
  intros Hn.
  assert (Hs : startswith (clean_completion raw p) (u " ") = false).
  { apply lstrip_no_space. apply clean_completion_helper_lstrip. }
  split; [done|]. unfold insert_text.
  destruct (clean_completion raw p) as [|c0 t] eqn:E; [done|].
  rewrite Hs. cbn [negb]. by rewrite andb_true_r.
Qed.

Lemma insert_cleaned_completion_witness :
  startswith (clean_completion (u "  return x" ++ [NL]) []) (u " ") = false.
Proof.
  refine (proj1 (insert_cleaned_completion (u "def f(x):") 9 _ [] _)).
  vm_compute. discriminate.
Defined.

(** ** The three cases of [_extract_code] *)

Lemma dropwhile_split p s :
  exists a, s = a ++ dropwhile p s /\ forallb p a = true.
Proof.
  induction s as [|c s (a & Ha & Hp)]; [by exists []|].
  simpl. destruct (p c) eqn:E.
  - exists (c :: a). split; [by rewrite <- app_comm_cons, <- Ha|].
    cbn [forallb]. by rewrite E, Hp.
  - by exists [].
Qed.

Lemma forallb_rev {A} (p : A -> bool) l : forallb p (rev l) = forallb p l.
Proof.
  apply eq_true_iff_eq. rewrite !forallb_forall.
  split; intros H x Hx; apply H; [by apply in_rev in Hx | by apply in_rev].
Qed.

(** [strip] takes away the two runs of white space, and only them. *)
Lemma strip_trimmed x : trimmed x (strip x).
Proof.
  destruct (dropwhile_split isspace x) as (a & Ha & Hpa).
  destruct (dropwhile_split isspace (rev (lstrip x))) as (b & Hb & Hpb).
  exists a, (rev b). split; [|split; [done|split; [by rewrite forallb_rev|split]]].
  - unfold strip, rstrip. fold (lstrip x) in Ha. rewrite Ha at 1. f_equal.
    apply (f_equal (@rev N)) in Hb. rewrite rev_involutive, rev_app_distr in Hb.
    exact Hb.
  - intros c t Hr. pose proof (lstrip_strip x) as H. rewrite Hr in H.
    unfold lstrip in H. simpl in H. destruct (isspace c) eqn:E; [|done].
    pose proof (dropwhile_suffix isspace t) as Hs. rewrite H in Hs.
    apply suffix_length in Hs. simpl in Hs. lia.
  - intros t c Hr. pose proof (rstrip_strip x) as H. rewrite Hr in H.
    unfold rstrip in H. rewrite rev_app_distr in H. simpl in H.
    destruct (isspace c) eqn:E; [|done].
    apply (f_equal (@length N)) in H.
    rewrite length_rev, length_app in H. simpl in H.
    pose proof (dropwhile_suffix isspace (rev t)) as Hs.
    apply suffix_length in Hs. rewrite length_rev in Hs. lia.
Qed.

Lemma after_opening_is_opening s : after_opening s = None <-> is_opening s = false.
Proof.
  rewrite after_opening_none. unfold is_opening. by rewrite orb_false_iff.
Qed.

Lemma after_opening_at op rest :
  op = OPEN_PYTHON \/ op = OPEN_BARE -> after_opening (op ++ rest) = Some rest.
Proof. by intros [-> | ->]. Qed.

Lemma find_opening_unfold s :
  find_opening s
  = match after_opening s with
    | Some rest => Some rest
    | None => match s with [] => None | _ :: s' => find_opening s' end
    end.
Proof. by destruct s. Qed.

Lemma find_opening_first pre op rest :
  op = OPEN_PYTHON \/ op = OPEN_BARE ->
  none_before is_opening pre (op ++ rest) = true ->
  find_opening (pre ++ op ++ rest) = Some rest.
Proof.
  intros Hop. induction pre as [|c pre IH].
  - intros _. rewrite find_opening_unfold. simpl app. by rewrite after_opening_at.
  - cbn [none_before]. rewrite andb_true_iff, negb_true_iff.
    intros [H1 H2]. rewrite find_opening_unfold.
    apply after_opening_is_opening in H1. rewrite H1.
    rewrite <- app_comm_cons. by apply IH.
Qed.

Lemma before_fence_unfold s :
  before_fence s
  = if startswith s FENCE then Some []
    else match s with
         | [] => None
         | c :: s' => option_map (cons c) (before_fence s')
         end.
Proof. by destruct s. Qed.

Lemma before_fence_first interior post :
  none_before is_fence interior (FENCE ++ post) = true ->
  before_fence (interior ++ FENCE ++ post) = Some interior.
Proof.
  induction interior as [|c t IH].
  - intros _. by rewrite before_fence_unfold.
  - cbn [none_before]. rewrite andb_true_iff, negb_true_iff.
    intros [H1 H2]. rewrite before_fence_unfold.
    unfold is_fence in H1. rewrite H1.
    rewrite <- app_comm_cons. by rewrite IH.
Qed.

(** C7, as amended.  An opening fence marker is three backticks, then
    [python] or nothing, then a newline; a closing fence marker is three
    backticks.  For every content: when its first opening marker is
    followed by a closing marker, [_extract_code] returns the text between
    that opening marker and the first closing marker after it, without the
    white space at its two ends; when its first opening marker is followed
    by no closing marker, it returns the text after that opening marker,
    trimmed in the same way; when it holds no opening marker, it returns
    the whole content, trimmed.  On the scenario of the specification it
    returns [x = 1]. *)
Theorem extract_code_cases :
  (forall pre op interior post,
      op = OPEN_PYTHON \/ op = OPEN_BARE ->
      first_at is_opening pre (op ++ interior ++ FENCE ++ post) = true ->
      first_at is_fence interior (FENCE ++ post) = true ->
      trimmed interior (_extract_code (pre ++ op ++ interior ++ FENCE ++ post)))
  /\ (forall pre op rest,
        op = OPEN_PYTHON \/ op = OPEN_BARE ->
        first_at is_opening pre (op ++ rest) = true ->
        str_in FENCE rest = false ->
        trimmed rest (_extract_code (pre ++ op ++ rest)))
  /\ (forall content,
        str_in OPEN_PYTHON content = false ->
        str_in OPEN_BARE content = false ->
        trimmed content (_extract_code content))
  /\ _extract_code
       (u "Here:" ++ [NL] ++ FENCE ++ u "python" ++ [NL] ++ u "x = 1" ++ [NL] ++ FENCE)
     = u "x = 1".
Proof.
  split; [|split; [|split]].
  - intros pre op interior post Hop Hfirst Hfence.
    apply andb_true_iff in Hfirst as [_ Hfirst].
    apply andb_true_iff in Hfence as [_ Hfence].
    rewrite extract_code_eq, (find_opening_first pre op _ Hop Hfirst).
    rewrite (before_fence_first _ _ Hfence). apply strip_trimmed.
  - intros pre op rest Hop Hfirst Hno.
    apply andb_true_iff in Hfirst as [_ Hfirst].
    rewrite extract_code_eq, (find_opening_first pre op _ Hop Hfirst).
    apply before_fence_none in Hno. rewrite Hno. apply strip_trimmed.
  - intros content H1 H2. rewrite extract_code_no_opening by done.
    apply strip_trimmed.
  - vm_compute. reflexivity.
Qed.

(** The scenario of the specification as an instance of the first case,
    with white space at both ends of the block. *)
Lemma extract_code_cases_witness :
  trimmed ([32] ++ u "x = 1" ++ [NL])
    (_extract_code (u "Here:" ++ [NL] ++ OPEN_PYTHON
                      ++ ([32] ++ u "x = 1" ++ [NL]) ++ FENCE ++ u " done")).
Proof.
  apply (proj1 extract_code_cases (u "Here:" ++ [NL]) OPEN_PYTHON
           ([32] ++ u "x = 1" ++ [NL]) (u " done")).
  - by left.
  - vm_compute. reflexivity.
  - vm_compute. reflexivity.
Defined.

(** C7 fails as stated: a block fenced with another language tag has an
    opening and a closing fence, and [_extract_code] returns the whole
    content, fences included, not the interior of the block. *)
Lemma extract_code_other_tag :
  _extract_code (FENCE ++ u "js" ++ [NL] ++ u "let x = 1" ++ [NL] ++ FENCE)
  = FENCE ++ u "js" ++ [NL] ++ u "let x = 1" ++ [NL] ++ FENCE
  /\ str_in FENCE
       (_extract_code (FENCE ++ u "js" ++ [NL] ++ u "let x = 1" ++ [NL] ++ FENCE))
     = true
  /\ _extract_code (FENCE ++ u "js" ++ [NL] ++ u "let x = 1" ++ [NL] ++ FENCE)
     <> u "let x = 1".
Proof. repeat split; try (vm_compute; reflexivity). vm_compute. discriminate. Qed.

(** ** The round trip through the file *)

(** *** Escapes *)

Lemma hexval_hex_digit d : d < 16 -> hexval (hex_digit d) = Some d.
Proof.
  intros H.
  assert (Hd : d = 0 \/ d = 1 \/ d = 2 \/ d = 3 \/ d = 4 \/ d = 5 \/ d = 6
               \/ d = 7 \/ d = 8 \/ d = 9 \/ d = 10 \/ d = 11 \/ d = 12
               \/ d = 13 \/ d = 14 \/ d = 15) by lia.
  repeat (destruct Hd as [-> | Hd]; [reflexivity|]). by subst.
Qed.

Lemma hex4_digits v :
  v < 65536 ->
  hex4 (hex_digit (v / 4096)) (hex_digit (v / 256 mod 16))
       (hex_digit (v / 16 mod 16)) (hex_digit (v mod 16)) = Some v.
Proof.
  intros H. unfold hex4.
  rewrite !hexval_hex_digit.
  - f_equal.
    pose proof (N.div_mod v 16 ltac:(lia)).
    pose proof (N.div_mod (v / 16) 16 ltac:(lia)).
    pose proof (N.div_mod (v / 16 / 16) 16 ltac:(lia)).
    rewrite !N.Div0.div_div in *.
    change (16 * 16) with 256 in *. change (256 * 16) with 4096 in *.
    assert (v / 4096 < 16) by (apply N.Div0.div_lt_upper_bound; lia).
    lia.
  - apply N.mod_lt; lia.
  - apply N.mod_lt; lia.
  - apply N.mod_lt; lia.
  - apply N.Div0.div_lt_upper_bound; lia.
Qed.

(** How [scan_string] goes on at an escape of four digits. *)
Lemma scan_string_u a b c d t :
  scan_string (92 :: 117 :: a :: b :: c :: d :: t)
  = match hex4 a b c d with
    | None => None
    | Some uni =>
        match t with
        | b1 :: u1 :: s4 =>
            if is_high uni && (b1 =? 92) && (u1 =? 117) then
              match s4 with
              | a2 :: b2 :: c2 :: d2 :: s5 =>
                  match hex4 a2 b2 c2 d2 with
                  | None => None
                  | Some uni2 =>
                      if is_low uni2
                      then cons_to (65536 + (uni - 55296) * 1024 + (uni2 - 56320))
                                   (scan_string s5)
                      else cons_to uni (scan_string t)
                  end
              | _ => None
              end
            else cons_to uni (scan_string t)
        | _ => cons_to uni (scan_string t)
        end
    end.
Proof. reflexivity. Qed.

(** An escape that is not the first half of a pair is one character. *)
Lemma scan_string_u_alone v t :
  v < 65536 ->
  (is_high v = true -> forall s4, t = 92 :: 117 :: s4 ->
     exists a b c d s5 w, s4 = a :: b :: c :: d :: s5
                          /\ hex4 a b c d = Some w /\ is_low w = false) ->
  scan_string (u_escape v ++ t) = cons_to v (scan_string t).
Proof.
  intros Hv Ht. unfold u_escape. cbn [app].
  rewrite scan_string_u, hex4_digits by done.
  destruct t as [|b1 [|u1 s4]]; [done | done |].
  destruct (is_high v) eqn:Hh; [|done].
  destruct (N.eqb_spec b1 92) as [-> | ?]; [|done].
  destruct (N.eqb_spec u1 117) as [-> | ?]; [|done].
  cbn [andb].
  destruct (Ht eq_refl s4 eq_refl) as (a & b & c & d & s5 & w & -> & Hw & Hl).
  by rewrite Hw, Hl.
Qed.

(** The two escapes of a character above 65535 are that character. *)
Lemma scan_string_pair c t :
  65536 <= c < 1114112 ->
  scan_string (u_escape (55296 + ((c - 65536) / 1024) mod 1024)
               ++ u_escape (56320 + (c - 65536) mod 1024) ++ t)
  = cons_to c (scan_string t).
Proof.
  intros Hc.
  assert (Hq : (c - 65536) / 1024 < 1024)
    by (apply N.Div0.div_lt_upper_bound; lia).
  rewrite (N.mod_small _ 1024 Hq).
  pose proof (N.mod_lt (c - 65536) 1024 ltac:(lia)) as Hr.
  pose proof (N.div_mod (c - 65536) 1024 ltac:(lia)) as Hdm.
  set (hi := 55296 + (c - 65536) / 1024) in *.
  set (lo := 56320 + (c - 65536) mod 1024) in *.
  unfold u_escape at 1. cbn [app].
  rewrite scan_string_u, hex4_digits by (subst hi; lia).
  unfold u_escape at 1. cbn [app].
  assert (Hh : is_high hi = true).
  { unfold is_high. subst hi. apply andb_true_intro. split; apply N.leb_le; lia. }
  rewrite Hh. cbn [andb N.eqb Pos.eqb].
  rewrite hex4_digits by (subst lo; lia).
  assert (Hl : is_low lo = true).
  { unfold is_low. subst lo. apply andb_true_intro. split; apply N.leb_le; hide_divmod; lia. }
  rewrite Hl. f_equal. subst hi lo. hide_divmod. lia.
Qed.

Lemma is_low_not_high v : is_high v = true -> is_low v = false.
Proof.
  unfold is_high, is_low. intros [_ H]%andb_prop. apply N.leb_le in H.
  apply andb_false_intro1. apply N.leb_gt. lia.
Qed.

(** What the text of a character begins with, when the text begins with
    the two letters of a long escape. *)
Lemma escape_char_long d t s4 :
  d < 1114112 -> is_low d = false ->
  escape_char d ++ t = 92 :: 117 :: s4 ->
  exists a b c e s5 w, s4 = a :: b :: c :: e :: s5
                       /\ hex4 a b c e = Some w /\ is_low w = false.
Proof.
  intros Hd Hl. unfold escape_char.
  repeat (match goal with
          | |- context [if ?b then _ else _] => destruct b eqn:?
          end; [cbn [app]; try (intros; discriminate)|]).
  - intros [= -> _]. done.
  - unfold u_escape. cbn [app]. intros [= <-].
    eexists _, _, _, _, _, _. split; [done|]. split; [|exact Hl].
    apply hex4_digits. by apply N.ltb_lt.
  - unfold u_escape at 1. cbn [app]. intros [= <-].
    assert (65536 <= d) by (by apply N.ltb_ge).
    assert (Hq : (d - 65536) / 1024 < 1024)
      by (apply N.Div0.div_lt_upper_bound; lia).
    rewrite (N.mod_small _ 1024 Hq).
    eexists _, _, _, _, _, _. split; [done|]. split.
    + apply hex4_digits. hide_divmod. lia.
    + apply is_low_not_high. unfold is_high.
      apply andb_true_intro. split; apply N.leb_le; hide_divmod; lia.
Qed.

(** The text of one character is read as that character. *)
Lemma scan_string_escape_char c s t :
  text_ok (c :: s) = true ->
  scan_string (escape_char c ++ flat_map escape_char s ++ 34 :: t)
  = cons_to c (scan_string (flat_map escape_char s ++ 34 :: t)).
Proof.
  cbn [text_ok]. intros [[Hc Hp]%andb_prop Hs']%andb_prop.
  apply N.ltb_lt in Hc. apply negb_true_iff in Hp.
  unfold escape_char at 1.
  repeat (match goal with
          | |- context [if ?b then _ else _] =>
              match b with
              | (_ =? _) => destruct (N.eqb_spec c ltac:(match b with (_ =? ?k) => exact k end)) as [-> | ?]
              end
          end; [reflexivity|]).
  destruct ((32 <=? c) && (c <=? 126)) eqn:Hprint.
  - apply andb_prop in Hprint as [H1%N.leb_le H2%N.leb_le].
    cbn [app scan_string].
    destruct (N.eqb_spec c 34); [done|]. destruct (N.eqb_spec c 92); [done|].
    destruct (N.ltb_spec c 32); [lia|]. done.
  - destruct (N.ltb_spec c 65536) as [Hs | Hs].
    + apply scan_string_u_alone; [done|].
      intros Hh s4 Heq. rewrite Hh in Hp. cbn [andb] in Hp.
      destruct s as [|d s'].
      * cbn in Heq. discriminate.
      * cbn [flat_map] in Heq. rewrite <- app_assoc in Heq.
        apply (escape_char_long d _ s4) in Heq; [done | | done].
        cbn [text_ok] in Hs'.
        apply andb_prop in Hs' as [[Hd _]%andb_prop _]. by apply N.ltb_lt.
    + rewrite <- app_assoc. apply scan_string_pair. lia.
Qed.

(** A quoted string is read as written. *)
Lemma scan_string_quote s t :
  text_ok s = true ->
  scan_string (flat_map escape_char s ++ 34 :: t) = Some (s, t).
Proof.
  induction s as [|c s IH]; intros H.
  - reflexivity.
  - cbn [flat_map]. rewrite <- app_assoc, scan_string_escape_char by done.
    rewrite IH; [done|]. cbn [text_ok] in H. by apply andb_prop in H as [_ H].
Qed.

(** *** White space *)

Lemma skip_ws_newline_indent lvl t : skip_ws (newline_indent lvl ++ t) = skip_ws t.
Proof.
  unfold newline_indent. cbn [app]. unfold skip_ws. cbn [dropwhile is_ws].
  change (is_ws NL) with true. cbn iota.
  induction (2 * lvl)%nat as [|n IH]; [done|]. exact IH.
Qed.

Lemma skip_ws_head c t : is_ws c = false -> skip_ws (c :: t) = c :: t.
Proof. intros H. unfold skip_ws. cbn [dropwhile]. by rewrite H. Qed.

(** *** The text of a dictionary *)

Section RoundTrip.

Variable float_text : Z -> str.
Variable float_of_text : str -> Z.

Lemma dump_str lvl s :
  dump float_text lvl (JStr s) = 34 :: flat_map escape_char s ++ [34].
Proof. reflexivity. Qed.

Lemma dump_obj lvl m :
  dump float_text lvl (JObj m)
  = match map_to_list m with
    | [] => [123; 125]
    | l => 123 :: newline_indent (S lvl) ++ members_text float_text lvl l
           ++ newline_indent lvl ++ [125]
    end.
Proof.
  change (dump float_text lvl (JObj m))
    with (match map_to_list (dump float_text (S lvl) <$> m) with
          | [] => u "{}"
          | items =>
              u "{" ++ newline_indent (S lvl)
              ++ join (u "," ++ newline_indent (S lvl))
                      (map (fun kv => quote kv.1 ++ u ": " ++ kv.2) items)
              ++ newline_indent lvl ++ u "}"
          end).
  rewrite map_to_list_fmap. unfold members_text.
  assert (Hmap : forall l : list (str * json),
             map (fun kv : str * str => quote kv.1 ++ u ": " ++ kv.2)
                 (prod_map id (dump float_text (S lvl)) <$> l)
             = map (item_text float_text lvl) l).
  { intros l. change (prod_map id (dump float_text (S lvl)) <$> l)
      with (map (prod_map id (dump float_text (S lvl))) l).
    rewrite map_map. apply map_ext. by intros []. }
  destruct (map_to_list m) as [|kv l]; [reflexivity|].
  rewrite <- (Hmap (kv :: l)). reflexivity.
Qed.

Lemma item_text_eq lvl k v :
  item_text float_text lvl (k, v)
  = 34 :: flat_map escape_char k ++ 34 :: 58 :: 32 :: dump float_text (S lvl) v.
Proof.
  unfold item_text, quote. cbn [fst snd app]. by rewrite <- app_assoc.
Qed.

Lemma members_text_cons lvl kv kv' l :
  members_text float_text lvl (kv :: kv' :: l)
  = item_text float_text lvl kv ++ 44 :: newline_indent (S lvl)
    ++ members_text float_text lvl (kv' :: l).
Proof. reflexivity. Qed.

Lemma members_text_one lvl kv :
  members_text float_text lvl [kv] = item_text float_text lvl kv.
Proof. reflexivity. Qed.

Lemma members_text_head lvl l :
  l <> [] -> exists r, members_text float_text lvl l = 34 :: r.
Proof.
  destruct l as [|[k v] [|kv' l]]; [done | |]; intros _.
  - rewrite members_text_one, item_text_eq. eauto.
  - rewrite members_text_cons, item_text_eq. cbn [app]. eauto.
Qed.

(** The text of a member is longer than the text of its value. *)
Lemma members_text_bound lvl l k v :
  (k, v) ∈ l ->
  (length (dump float_text (S lvl) v) < length (members_text float_text lvl l))%nat.
Proof.
  induction l as [|kv l IH]; [by intros ?%elem_of_nil|].
  intros [<- | Hin]%elem_of_cons.
  - destruct l as [|kv' l].
    + rewrite members_text_one, item_text_eq. cbn [length].
      rewrite length_app. cbn [length]. lia.
    + rewrite members_text_cons, item_text_eq. cbn [length app].
      rewrite !length_app. cbn [length]. rewrite !length_app. lia.
  - specialize (IH Hin). destruct l as [|kv' l]; [by apply elem_of_nil in Hin|].
    rewrite members_text_cons. rewrite length_app. cbn [length].
    rewrite length_app. lia.
Qed.

(** *** The documents that can be stored *)

Lemma storable_obj m k v :
  storable (JObj m) = true -> m !! k = Some v ->
  text_ok k = true /\ storable v = true.
Proof.
  change (storable (JObj m))
    with (map_fold (fun k x acc => text_ok k && storable x && acc) true m).
  rewrite map_fold_foldr. intros H Hl. apply elem_of_map_to_list in Hl.
  induction (map_to_list m) as [|[k' v'] l IH]; [by apply elem_of_nil in Hl|].
  cbn [foldr uncurry] in H. apply andb_prop in H as [[H1 H2]%andb_prop H3].
  apply elem_of_cons in Hl as [[= -> ->] | Hl]; [done | by apply IH].
Qed.

Lemma skip_ws_dump lvl v t :
  storable v = true ->
  skip_ws (dump float_text lvl v ++ t) = dump float_text lvl v ++ t.
Proof.
  destruct v; try discriminate; intros _.
  - reflexivity.
  - rewrite dump_obj. by destruct (map_to_list m).
Qed.

(** *** Reading the text of a value *)

Lemma parse_value_str f s1 :
  parse_value float_of_text (S f) (34 :: s1)
  = match scan_string s1 with
    | Some (t, r) => Some (JStr t, r)
    | None => None
    end.
Proof. reflexivity. Qed.

Lemma parse_value_obj f s1 :
  parse_value float_of_text (S f) (123 :: s1)
  = match skip_ws s1 with
    | d :: r => if d =? 125 then Some (JObj ∅, r)
                else parse_members float_of_text f (d :: r) []
    | [] => None
    end.
Proof. reflexivity. Qed.

Lemma parse_members_step f s1 acc :
  parse_members float_of_text (S f) (34 :: s1) acc
  = match scan_string s1 with
    | Some (key, r) =>
        match skip_ws r with
        | colon :: r1 =>
            if colon =? 58 then
              match parse_value float_of_text f (skip_ws r1) with
              | Some (v, r2) =>
                  match skip_ws r2 with
                  | d :: r3 =>
                      if d =? 125
                      then Some (JObj (list_to_map ((key, v) :: acc)), r3)
                      else if d =? 44
                      then parse_members float_of_text f (skip_ws r3) ((key, v) :: acc)
                      else None
                  | [] => None
                  end
              | None => None
              end
            else None
        | [] => None
        end
    | None => None
    end.
Proof. reflexivity. Qed.

(** The members of a dictionary are read one after the other, each value
    by [parse_value] with the fuel that is left. *)
Lemma parse_members_text lvl l :
  l <> [] ->
  (forall k v, (k, v) ∈ l ->
     text_ok k = true /\ storable v = true
     /\ forall F t, (length (dump float_text (S lvl) v) <= F)%nat ->
          parse_value float_of_text F (dump float_text (S lvl) v ++ t) = Some (v, t)) ->
  forall F acc t,
    (length (members_text float_text lvl l) <= F)%nat ->
    parse_members float_of_text F
      (members_text float_text lvl l ++ newline_indent lvl ++ 125 :: t) acc
    = Some (JObj (list_to_map (reverse l ++ acc)), t).
Proof.
  induction l as [|[k v] l IH]; [done|]. intros _ Hall F acc t HF.
  destruct (Hall k v ltac:(left)) as (Hk & Hv & Hread).
  destruct l as [|kv' l].
  - rewrite members_text_one, item_text_eq in *.
    cbn [length] in HF. rewrite length_app in HF. cbn [length] in HF.
    destruct F as [|f]; [lia|].
    cbn [app]. rewrite <- app_assoc. cbn [app].
    rewrite parse_members_step, scan_string_quote by done.
    rewrite skip_ws_head by done. cbn [N.eqb Pos.eqb].
    change (skip_ws (32 :: ?x)) with (skip_ws x).
    rewrite skip_ws_dump by done.
    rewrite Hread by lia.
    rewrite skip_ws_newline_indent, skip_ws_head by done.
    cbn [N.eqb Pos.eqb]. reflexivity.
  - rewrite members_text_cons, item_text_eq in *.
    cbn [length] in HF. rewrite !length_app in HF. cbn [length] in HF.
    rewrite !length_app in HF. cbn [length] in HF.
    destruct F as [|f]; [lia|].
    cbn [app]. rewrite <- !app_assoc. cbn [app]. rewrite <- !app_assoc.
    rewrite parse_members_step, scan_string_quote by done.
    rewrite skip_ws_head by done. cbn [N.eqb Pos.eqb].
    change (skip_ws (32 :: ?x)) with (skip_ws x).
    rewrite skip_ws_dump by done.
    rewrite Hread by lia.
    rewrite skip_ws_head by done. cbn [N.eqb Pos.eqb].
    rewrite skip_ws_newline_indent.
    destruct (members_text_head lvl (kv' :: l) ltac:(done)) as [r Hr].
    rewrite Hr at 1. cbn [app]. rewrite skip_ws_head by done.
    change (34 :: r ++ ?x) with ((34 :: r) ++ x). rewrite <- Hr.
    rewrite IH; [| done | | lia].
    + rewrite (reverse_cons (kv' :: l) (k, v)).
      by rewrite <- app_assoc.
    + intros k' v' Hin. apply Hall. by right.
Qed.

(** The text of a storable value is read as that value, whatever
    follows it. *)
Lemma parse_value_dump n :
  forall v lvl,
    (length (dump float_text lvl v) <= n)%nat -> storable v = true ->
    forall F t, (length (dump float_text lvl v) <= F)%nat ->
      parse_value float_of_text F (dump float_text lvl v ++ t) = Some (v, t).
Proof.
  induction n as [|n IH]; intros v lvl Hn Hs F t HF.
  - destruct v; try discriminate.
    + rewrite dump_str in Hn. cbn [length] in Hn. lia.
    + rewrite dump_obj in Hn. destruct (map_to_list m); cbn [length] in Hn; lia.
  - destruct v; try discriminate.
    + rewrite dump_str in *. cbn [length] in HF.
      destruct F as [|f]; [lia|].
      cbn [app]. rewrite <- app_assoc. cbn [app].
      rewrite parse_value_str, scan_string_quote; done.
    + rewrite dump_obj in *. destruct (map_to_list m) as [|kv l] eqn:E.
      * apply map_to_list_empty_iff in E as ->.
        destruct F as [|f]; [cbn [length] in HF; lia|]. reflexivity.
      * cbn [length] in HF, Hn. rewrite !length_app in HF, Hn.
        destruct F as [|f]; [lia|].
        cbn [app]. rewrite <- !app_assoc.
        rewrite parse_value_obj, skip_ws_newline_indent.
        destruct (members_text_head lvl (kv :: l) ltac:(done)) as [r Hr].
        rewrite Hr at 1. cbn [app]. rewrite skip_ws_head by done.
        cbn [N.eqb Pos.eqb].
        change (34 :: r ++ ?x) with ((34 :: r) ++ x). rewrite <- Hr.
        cbn [app].
        rewrite (parse_members_text lvl (kv :: l)); [| done | | lia].
        -- rewrite app_nil_r, <- E. do 2 f_equal.
           rewrite (list_to_map_proper _ (map_to_list m)).
           ++ by rewrite list_to_map_to_list.
           ++ rewrite fmap_reverse, reverse_Permutation.
              apply NoDup_fst_map_to_list.
           ++ apply reverse_Permutation.
        -- intros k v Hin.
           assert (Hm : m !! k = Some v) by (apply elem_of_map_to_list; by rewrite E).
           destruct (storable_obj m k v Hs Hm) as [Hk Hv].
           split; [done|]. split; [done|].
           pose proof (members_text_bound lvl _ k v Hin).
           intros F' t'. apply IH; [lia | done].
Qed.

(** What [json.load] reads from what [json.dump] wrote. *)
Lemma json_loads_dumps v :
  storable v = true ->
  json_loads float_of_text (json_dumps float_text v) = Some v.
Proof.
  intros Hs. unfold json_loads, json_dumps.
  rewrite <- (app_nil_r (dump float_text 0 v)) at 1 2.
  rewrite skip_ws_dump by done. rewrite app_nil_r.
  rewrite <- (app_nil_r (dump float_text 0 v)) at 2.
  rewrite (parse_value_dump (length (dump float_text 0 v))); [done | lia | done | lia].
Qed.

End RoundTrip.

(** *** Saving, then loading *)

Section SaveLoad.

Variable float_text : Z -> str.
Variable float_of_text : str -> Z.

(** C6, as amended.  For every document [doc] made of dictionaries and
    strings in which no string, key or value, holds a high surrogate
    directly before a low surrogate: when [os.makedirs] and the write
    succeed, [_save_context doc] finishes without raising, and a following
    [_load_context] reads the file with [json.load] and returns [doc],
    whatever the file held before. *)
Theorem save_then_load (o : io) (doc : json) (st : state) :
  makedirs_ok o = true ->
  write o = WriteOk ->
  storable doc = true ->
  fst (_save_context (json_dumps float_text) o doc st) = inr tt
  /\ _load_context (json_loads float_of_text)
       (context_file (snd (_save_context (json_dumps float_text) o doc st)))
     = doc.
Proof.
  intros H1 H2 H3. rewrite save_context_ok by done.
  cbn [fst snd context_file _load_context].
  by rewrite json_loads_dumps.
Qed.

End SaveLoad.

(** A snippet with a quote, a newline, an accented letter, a character
    above 65535 and a lone surrogate comes back as it was saved, over a
    file that held a broken text. *)
Lemma save_then_load_witness :
  let doc :=
    JObj (<[u "snippets" :=
              JObj (<[u "sum" :=
                        snippet_entry [115; 32; 61; 32; 34; 233; 34; 10; 128512; 55357]
                                      (u "2024-01-01 10:00:00")]> ∅)]>
          (<[u "file_summaries" := JObj ∅]> ∅)) in
  storable doc = true
  /\ _load_context (json_loads no_float_of_text)
       (context_file
          (snd (_save_context (json_dumps no_float_text) (IO true WriteOk) doc
                  (State [] ∅ empty_document (Contents (u "{oops"))))))
     = doc.
Proof.
  cbn zeta. split; [vm_compute; reflexivity|].
  refine (proj2 (save_then_load no_float_text no_float_of_text
                   (IO true WriteOk) _ _ _ _ _));
    vm_compute; reflexivity.
Defined.

(** C6 fails as stated: the two escapes that [json.dump] writes for a high
    surrogate followed by a low surrogate are the escapes of one character
    above 65535, and [json.load] reads them as that character.  The code of
    the snippet is saved with two characters and loaded with one. *)
Lemma save_then_load_joins_surrogates :
  let doc code :=
    JObj (<[u "snippets" :=
              JObj (<[u "face" := snippet_entry code (u "now")]> ∅)]>
          (<[u "file_summaries" := JObj ∅]> ∅)) in
  let saved :=
    _save_context (json_dumps no_float_text) (IO true WriteOk)
      (doc [55357; 56832]) (State [] ∅ empty_document Absent) in
  fst saved = inr tt
  /\ _load_context (json_loads no_float_of_text) (context_file (snd saved))
     = doc [128512]
  /\ _load_context (json_loads no_float_of_text) (context_file (snd saved))
     <> doc [55357; 56832].
Proof.
  cbn zeta. split; [reflexivity|].
  assert (H : _load_context (json_loads no_float_of_text)
                (context_file
                   (snd (_save_context (json_dumps no_float_text) (IO true WriteOk)
                           (JObj (<[u "snippets" :=
                                      JObj (<[u "face" :=
                                                snippet_entry [55357; 56832] (u "now")]> ∅)]>
                                  (<[u "file_summaries" := JObj ∅]> ∅)))
                           (State [] ∅ empty_document Absent))))
              = JObj (<[u "snippets" :=
                          JObj (<[u "face" := snippet_entry [128512] (u "now")]> ∅)]>
                      (<[u "file_summaries" := JObj ∅]> ∅)))
    by (vm_compute; reflexivity).
  split; [exact H|]. rewrite H. clear H. intros H.
  assert (E : forall code : str,
             get_cached_snippet (u "face")
               (State [] ∅
                  (JObj (<[u "snippets" :=
                             JObj (<[u "face" := snippet_entry code (u "now")]> ∅)]>
                         (<[u "file_summaries" := JObj ∅]> ∅))) Absent)
             = inr (JStr code)).
  { intros code. unfold get_cached_snippet. cbn [_snippet_cache _disk_context].
    vm_compute. reflexivity. }
  pose proof (E [128512]) as E1. rewrite H, E in E1. discriminate E1.
Qed.
